(** * Estring: intrusive hash-cached strings (estrings.hpp)

    A shallow embedding of the header layout [EstrRawData], the string hash
    [ascii_string_hash], the view handle [EstrPtr], the owning handle
    [EstrUniquePtr] and the runtime constructors [estr_new] and
    [estr_unique_new], followed by the properties of the specification.

    Conventions.
    - A [char] is a [byte]; [(uint8_t)c] is its value in [0, 256).
    - A [uint32_t] is a [Z] kept in [0, 2^32) by an explicit [wrap32].
    - The two bit-fields [needs_disposing : 1] and [length : 31] share one
      32-bit storage unit: bit 0 is the flag, bits 1..31 are the length.
    - Pointers are [option loc]; [None] is [nullptr].  Headers live in a
      store indexed by location; every operation that goes through a pointer
      runs in a state-and-fault monad, a fault standing for undefined
      behaviour of the C++ program (null or dangling access, reading past a
      buffer, releasing storage that did not come from [new[]]).
    - The store records a trace of allocations, releases and [memcmp] calls,
      which is what the specification's "instrumented counter" observes. *)

From Stdlib Require Import ZArith Lia.
From Stdlib.Strings Require Import Byte.
From stdpp Require Import base option list gmap.

Open Scope Z_scope.

(** ** Bytes and machine integers *)

#[global] Instance byte_eq_decision : EqDecision byte := Byte.byte_eq_dec.

(** [(uint8_t)c] *)
Definition uint8 (c : byte) : Z := Z.of_N (Byte.to_N c).

(** Reduction of a mathematical integer to a [uint32_t]. *)
Definition wrap32 (z : Z) : Z := z mod 2 ^ 32.

(** ** The string hash *)

(** The body of the [for] loop of [ascii_string_hash]: [string] is the memory
    from the current position to the end of the buffer, [hash] and [temp] are
    the two accumulators.  Running off the buffer before a NUL is met is a
    read out of bounds ([None]).  The loop counter [i] of the source is never
    read and is left out. *)
Fixpoint ascii_string_hash_loop (string : list byte) (hash temp : Z) : option Z :=
  match string with
  | [] => None
  | c :: string' =>
      if bool_decide (c = x00) then Some hash
      else
        let q := 127 in
        let hash' := wrap32 (hash + wrap32 (temp * uint8 c)) in
        let temp' := wrap32 (temp * q) in
        ascii_string_hash_loop string' hash' temp'
  end.

Definition ascii_string_hash (string : list byte) : option Z :=
  ascii_string_hash_loop string 0 1.

(** The polynomial hash as the specification words it:
    the sum of [bytes[i] * 127^i], modulo [2^32]. *)
Fixpoint poly_sum (bytes : list byte) (i : Z) : Z :=
  match bytes with
  | [] => 0
  | b :: bytes' => uint8 b * 127 ^ i + poly_sum bytes' (i + 1)
  end.

Definition polynomial_hash (bytes : list byte) : Z :=
  poly_sum bytes 0 mod 2 ^ 32.

(** The bytes of a buffer that come before its first NUL byte, that is, the
    C string a [const char*] to the buffer denotes. *)
Fixpoint c_str (bytes : list byte) : list byte :=
  match bytes with
  | [] => []
  | c :: bytes' => if bool_decide (c = x00) then [] else c :: c_str bytes'
  end.

(** ** The header [EstrRawData] *)

Record EstrRawData := mkEstrRawData {
  EstrRawData_bits : Z;          (* needs_disposing : 1, length : 31 *)
  EstrRawData_hash : Z;          (* uint32_t hash *)
  EstrRawData_chars : list byte  (* char chars[] *)
}.

Definition EstrRawData_needs_disposing (r : EstrRawData) : bool :=
  Z.testbit (EstrRawData_bits r) 0.

Definition EstrRawData_length (r : EstrRawData) : Z :=
  Z.land (Z.shiftr (EstrRawData_bits r) 1) (Z.ones 31).

(** Stores into the two bit-fields: the other field's bits are kept. *)
Definition bits_set_needs_disposing (v : bool) (w : Z) : Z :=
  Z.lor (Z.ldiff w 1) (Z.b2z v).

Definition bits_set_length (n : Z) (w : Z) : Z :=
  Z.lor (Z.land w 1) (Z.shiftl (n mod 2 ^ 31) 1).

Definition set_needs_disposing (v : bool) (r : EstrRawData) : EstrRawData :=
  mkEstrRawData (bits_set_needs_disposing v (EstrRawData_bits r))
                (EstrRawData_hash r) (EstrRawData_chars r).

Definition set_length (n : Z) (r : EstrRawData) : EstrRawData :=
  mkEstrRawData (bits_set_length n (EstrRawData_bits r))
                (EstrRawData_hash r) (EstrRawData_chars r).

Definition set_hash (h : Z) (r : EstrRawData) : EstrRawData :=
  mkEstrRawData (EstrRawData_bits r) h (EstrRawData_chars r).

Definition set_chars (cs : list byte) (r : EstrRawData) : EstrRawData :=
  mkEstrRawData (EstrRawData_bits r) (EstrRawData_hash r) cs.

(** The default member initialisers of [EstrRawData<Chars...>]:
    [needs_disposing = false], [length = sizeof...(Chars) - 1] and
    [chars = {Chars...}].  [hash] has none; its indeterminate value is
    written [0] and is overwritten before any read.  The subtraction is done
    in [size_t] and then stored in 31 bits, so only its residue modulo
    [2^31] matters. *)
Definition EstrRawData_init (Chars : list byte) : EstrRawData :=
  set_length (Z.of_nat (length Chars) - 1)
    (set_needs_disposing false (mkEstrRawData 0 0 Chars)).

(** [consteval EstrRawData()]: the initialisers, then
    [hash = ascii_string_hash(chars)]. *)
Definition EstrRawData_ctor (Chars : list byte) : option EstrRawData :=
  let r := EstrRawData_init Chars in
  match ascii_string_hash (EstrRawData_chars r) with
  | Some h => Some (set_hash h r)
  | None => None
  end.

(** [constexpr EstrRawData(int)] at [EstrRawData<'\0'>]: the initialisers only. *)
Definition EstrRawData_ctor_int : EstrRawData := EstrRawData_init [x00].

(** ** The store *)

Definition loc := positive.

(** A raw pointer to a header; [None] is [nullptr]. *)
Definition ptr := option loc.

(** Where a header lives: in static storage ([EstrUniqueStorage<...>::data])
    or in a block obtained from [new char[]]. *)
Inductive storage := Static | Heap.

Record block := mkBlock {
  blk_storage : storage;
  blk_data : EstrRawData
}.

Inductive event :=
| EvAlloc (l : loc) (n : Z)   (* new char[n] returned l *)
| EvFree (l : loc)            (* delete[] of the block at l *)
| EvMemcmp (n : Z).           (* memcmp over n bytes *)

Record state := mkState {
  mem : gmap loc block;
  trace : list event
}.

Definition initial_state : state := mkState ∅ [].

(** ** The state-and-fault monad *)

Inductive fault := NullDeref | Dangling | OutOfBounds | BadDelete.

Inductive result (A : Type) :=
| Ok (a : A) (st : state)
| Fault (f : fault).
Arguments Ok {A} a st.
Arguments Fault {A} f.

Definition M (A : Type) : Type := state -> result A.

Definition ret {A} (a : A) : M A := fun st => Ok a st.

Definition bind {A B} (m : M A) (k : A -> M B) : M B :=
  fun st => match m st with
            | Ok a st' => k a st'
            | Fault f => Fault f
            end.

Notation "x <- m ;; k" := (bind m (fun x => k))
  (at level 100, m at next level, right associativity).
Notation "m ;;; k" := (bind m (fun _ => k))
  (at level 100, right associativity).

Definition fail {A} (f : fault) : M A := fun _ => Fault f.

(** A read that may leave its buffer. *)
Definition in_bounds {A} (o : option A) : M A :=
  match o with
  | Some a => ret a
  | None => fail OutOfBounds
  end.

(** [*p] for a header pointer. *)
Definition deref (p : ptr) : M EstrRawData := fun st =>
  match p with
  | None => Fault NullDeref
  | Some l =>
      match mem st !! l with
      | Some b => Ok (blk_data b) st
      | None => Fault Dangling
      end
  end.

(** An assignment through a header pointer. *)
Definition modify (p : ptr) (f : EstrRawData -> EstrRawData) : M unit := fun st =>
  match p with
  | None => Fault NullDeref
  | Some l =>
      match mem st !! l with
      | Some b =>
          Ok tt (mkState (<[l := mkBlock (blk_storage b) (f (blk_data b))]> (mem st))
                         (trace st))
      | None => Fault Dangling
      end
  end.

(** [new char[n]] followed by the placement [new (ptr) EstrRawData<'\0'>(0)]:
    a fresh heap block holding the freshly constructed header. *)
Definition new_char_array (n : Z) (r : EstrRawData) : M ptr := fun st =>
  let l := fresh (dom (mem st)) in
  Ok (Some l) (mkState (<[l := mkBlock Heap r]> (mem st))
                       (trace st ++ [EvAlloc l n])).

(** [delete[]] of a header pointer cast to a [char] pointer.  Releasing the null pointer does nothing; releasing
    anything that is not a live [new[]] block is undefined. *)
Definition delete_char_array (p : ptr) : M unit := fun st =>
  match p with
  | None => Ok tt st
  | Some l =>
      match mem st !! l with
      | Some (mkBlock Heap _) =>
          Ok tt (mkState (delete l (mem st)) (trace st ++ [EvFree l]))
      | _ => Fault BadDelete
      end
  end.

(** The object [EstrUniqueStorage<Chars...>::data], built by the [consteval]
    constructor and placed in static storage.  Each use places one object;
    that equal literals share their object is not modelled. *)
Definition EstrUniqueStorage_data (Chars : list byte) : M ptr := fun st =>
  match EstrRawData_ctor Chars with
  | Some r =>
      let l := fresh (dom (mem st)) in
      Ok (Some l) (mkState (<[l := mkBlock Static r]> (mem st)) (trace st))
  | None => Fault OutOfBounds
  end.

(** [memcpy(dst, src, n)] and [buf[i] = c] on the bytes written so far of a
    buffer whose capacity the allocation guarantees. *)
Definition memcpy (dst src : list byte) (n : nat) : list byte :=
  take n src ++ drop n dst.

Definition buf_store (i : nat) (c : byte) (buf : list byte) : list byte :=
  take i buf ++ c :: drop (S i) buf.

(** [memcmp(a, b, n)]: zero when the first [n] bytes agree, otherwise the
    difference of the first pair that differs; [None] when a buffer is
    shorter than [n]. *)
Fixpoint memcmp_bytes (a b : list byte) (n : nat) {struct n} : option Z :=
  match n with
  | O => Some 0
  | S n' =>
      match a, b with
      | x :: a', y :: b' =>
          if bool_decide (x = y) then memcmp_bytes a' b' n'
          else Some (uint8 x - uint8 y)
      | _, _ => None
      end
  end.

Definition memcmp (a b : list byte) (n : Z) : M Z := fun st =>
  match memcmp_bytes a b (Z.to_nat n) with
  | Some d => Ok d (mkState (mem st) (trace st ++ [EvMemcmp n]))
  | None => Fault OutOfBounds
  end.

(** ** The view handle [EstrPtr] *)

Record EstrPtr := mkEstrPtr { _raw_data : ptr }.

Definition EstrPtr_size (this : EstrPtr) : M Z :=
  r <- deref (_raw_data this) ;; ret (EstrRawData_length r).

Definition EstrPtr_data (this : EstrPtr) : M (list byte) :=
  r <- deref (_raw_data this) ;; ret (EstrRawData_chars r).

Definition EstrPtr_needs_disposing (this : EstrPtr) : M bool :=
  r <- deref (_raw_data this) ;; ret (EstrRawData_needs_disposing r).

Definition EstrPtr_hash (this : EstrPtr) : M Z :=
  r <- deref (_raw_data this) ;; ret (EstrRawData_hash r).

(** [view()]: the [size()] bytes starting at [data()]. *)
Definition EstrPtr_view (this : EstrPtr) : M (list byte) :=
  d <- EstrPtr_data this ;;
  n <- EstrPtr_size this ;;
  if bool_decide (n <= Z.of_nat (length d)) then ret (take (Z.to_nat n) d)
  else fail OutOfBounds.

Definition EstrPtr_destroy (this : EstrPtr) : M unit :=
  nd <- EstrPtr_needs_disposing this ;;
  if nd then delete_char_array (_raw_data this) else ret tt.

Definition EstrPtr_create_from_raw_data (raw_data : ptr) : EstrPtr :=
  mkEstrPtr raw_data.

(** [std::hash<EstrPtr>::operator()]: the widening to [size_t] keeps the value. *)
Definition std_hash (string : EstrPtr) : M Z :=
  EstrPtr_hash string.

(** [operator==] *)
Definition operator_eq (a b : EstrPtr) : M bool :=
  sa <- EstrPtr_size a ;;
  sb <- EstrPtr_size b ;;
  if bool_decide (sa <> sb) then ret false
  else
    ha <- EstrPtr_hash a ;;
    hb <- EstrPtr_hash b ;;
    if bool_decide (ha <> hb) then ret false
    else
      da <- EstrPtr_data a ;;
      db <- EstrPtr_data b ;;
      n <- EstrPtr_size a ;;
      d <- memcmp da db n ;;
      ret (bool_decide (d = 0)).

(** [operator!=] *)
Definition operator_ne (a b : EstrPtr) : M bool :=
  e <- operator_eq a b ;; ret (negb e).

(** The literal operator [""_estr] behind the macro [ESTR]: the characters of
    the literal followed by ['\0'] select the static object. *)
Definition ESTR (literal : list byte) : M EstrPtr :=
  p <- EstrUniqueStorage_data (literal ++ [x00]) ;;
  ret (EstrPtr_create_from_raw_data p).

(** ** The runtime constructor [estr_new] *)

(** [sizeof(EstrRawData<'\0'>)] and [offsetof(EstrRawData<'\0'>, chars)] for
    the usual layout: two 4-byte words, one [char], padding to a multiple
    of 4. *)
Definition sizeof_EstrRawData : Z := 12.
Definition offsetof_chars : Z := 8.

Definition estr_new (string : list byte) : M EstrPtr :=
  let size := length string in
  ptr <- new_char_array
           (Z.max sizeof_EstrRawData (offsetof_chars + Z.of_nat size + 1))
           EstrRawData_ctor_int ;;
  modify ptr (set_needs_disposing true) ;;;
  modify ptr (set_length (Z.of_nat size)) ;;;
  modify ptr (fun r => set_chars (memcpy (EstrRawData_chars r) string size) r) ;;;
  modify ptr (fun r => set_chars (buf_store size x00 (EstrRawData_chars r)) r) ;;;
  r <- deref ptr ;;
  h <- in_bounds (ascii_string_hash (EstrRawData_chars r)) ;;
  modify ptr (set_hash h) ;;;
  ret (EstrPtr_create_from_raw_data ptr).

(** ** The owning handle [EstrUniquePtr] *)

(** [class EstrUniquePtr : public EstrPtr] adds no field. *)
Definition EstrUniquePtr := EstrPtr.

(** The move constructor: the new handle, and the source as it is left. *)
Definition EstrUniquePtr_move (old_ptr : EstrUniquePtr)
  : EstrUniquePtr * EstrUniquePtr :=
  (mkEstrPtr (_raw_data old_ptr), mkEstrPtr None).

Definition EstrUniquePtr_get (this : EstrUniquePtr) : EstrPtr :=
  EstrPtr_create_from_raw_data (_raw_data this).

(** The destructor. *)
Definition EstrUniquePtr_dtor (this : EstrUniquePtr) : M unit :=
  EstrPtr_destroy (EstrUniquePtr_get this).

Definition EstrUniquePtr_claim (p : EstrPtr) : EstrUniquePtr :=
  mkEstrPtr (_raw_data p).

Definition estr_unique_new (string : list byte) : M EstrUniquePtr :=
  estr <- estr_new string ;;
  ret (EstrUniquePtr_claim estr).

Definition EstrUniquePtr_clone (this : EstrUniquePtr) : M EstrUniquePtr :=
  v <- EstrPtr_view this ;;
  estr_unique_new v.

(** ** Text output and the macro [ESTR] on MSVC *)

(** [std::to_string(const EstrPtr&)]: a [std::string] copy of the view. *)
Definition std_to_string (string : EstrPtr) : M (list byte) :=
  EstrPtr_view string.


(** [TmpInstanceVariadicCharGenerator<str_storage, index, is_enabled, chars...>::type]:
    [value] and [size] are the two members of [str_storage], the result is the
    character pack of the [EstrUniqueStorage] the recursion ends in.  While
    enabled, an instantiation appends [value[index]] and instantiates the
    next index, enabled when [size - 1 > index].  Reading outside [value] is
    not a constant expression ([None]); [depth] bounds the nesting of
    instantiations, as every compiler does. *)
Fixpoint TmpInstanceVariadicCharGenerator
    (depth : nat) (value : list byte) (size : Z)
    (index : Z) (is_enabled : bool) (chars : list byte) : option (list byte) :=
  if is_enabled then
    match depth with
    | O => None
    | S depth' =>
        match value !! Z.to_nat index with
        | Some c =>
            TmpInstanceVariadicCharGenerator depth' value size (index + 1)
              (bool_decide (size - 1 > index)) (chars ++ [c])
        | None => None
        end
    end
  else Some chars.

(** The macro [ESTR(literal)] under [_MSC_VER]: [value] points to the
    literal's array, terminator included, [size] is [sizeof(literal)], and
    the generator starts at index 0, enabled, with no characters. *)
Definition ESTR_msvc (depth : nat) (literal : list byte) : M EstrPtr :=
  let value := literal ++ [x00] in
  let size := Z.of_nat (length value) in
  match TmpInstanceVariadicCharGenerator depth value size 0 true [] with
  | Some Chars =>
      p <- EstrUniqueStorage_data Chars ;;
      ret (EstrPtr_create_from_raw_data p)
  | None => fail OutOfBounds
  end.

(** ** Derived notions used to state the properties *)

(** The header both construction paths build from the content [s]: only the
    flag differs. *)
Definition header_of (owned : bool) (s : list byte) : EstrRawData :=
  mkEstrRawData (bits_set_length (Z.of_nat (length s)) (Z.b2z owned))
                (polynomial_hash (c_str s))
                (s ++ [x00]).

(** The block that holds it: heap storage exactly when the flag is set. *)
Definition block_of (owned : bool) (s : list byte) : block :=
  mkBlock (if owned then Heap else Static) (header_of owned s).

(** The number of bytes [estr_new] asks [new char[]] for. *)
Definition estr_new_size (s : list byte) : Z :=
  Z.max sizeof_EstrRawData (offsetof_chars + Z.of_nat (length s) + 1).

(** The three stages in the specification's words, with the byte comparison
    it performs, if any. *)
Definition equals_reference (ra rb : EstrRawData) : bool * list event :=
  if bool_decide (EstrRawData_length ra = EstrRawData_length rb) then
    if bool_decide (EstrRawData_hash ra = EstrRawData_hash rb) then
      (bool_decide (take (Z.to_nat (EstrRawData_length ra)) (EstrRawData_chars ra)
                    = take (Z.to_nat (EstrRawData_length ra)) (EstrRawData_chars rb)),
       [EvMemcmp (EstrRawData_length ra)])
    else (false, [])
  else (false, []).

(** The [size()] bytes at [data()] lie inside the character buffer. *)
Definition in_buffer (r : EstrRawData) : Prop :=
  EstrRawData_length r <= Z.of_nat (length (EstrRawData_chars r)).

(** A block that one of the two construction paths built from some content. *)
Definition block_ok (b : block) : Prop :=
  exists owned s, b = block_of owned s.

(** Every live header is one that a construction path built. *)
Definition store_ok (st : state) : Prop :=
  forall l b, mem st !! l = Some b -> block_ok b.

(** The calls a client can make on the store.  The move constructor, [get]
    and [claim] only copy a pointer between handles and are not listed. *)
Inductive call :=
| call_ESTR (literal : list byte)
| call_estr_new (string : list byte)
| call_estr_unique_new (string : list byte)
| call_size (p : EstrPtr)
| call_data (p : EstrPtr)
| call_needs_disposing (p : EstrPtr)
| call_hash (p : EstrPtr)
| call_view (p : EstrPtr)
| call_destroy (p : EstrPtr)
| call_std_hash (p : EstrPtr)
| call_operator_eq (a b : EstrPtr)
| call_operator_ne (a b : EstrPtr)
| call_clone (p : EstrUniquePtr)
| call_dtor (p : EstrUniquePtr).

(** The store a computation leaves, when it does not fault. *)
Definition after {A} (m : M A) (st : state) : option state :=
  match m st with
  | Ok _ st' => Some st'
  | Fault _ => None
  end.

Definition run_call (c : call) : state -> option state :=
  match c with
  | call_ESTR literal => after (ESTR literal)
  | call_estr_new string => after (estr_new string)
  | call_estr_unique_new string => after (estr_unique_new string)
  | call_size p => after (EstrPtr_size p)
  | call_data p => after (EstrPtr_data p)
  | call_needs_disposing p => after (EstrPtr_needs_disposing p)
  | call_hash p => after (EstrPtr_hash p)
  | call_view p => after (EstrPtr_view p)
  | call_destroy p => after (EstrPtr_destroy p)
  | call_std_hash p => after (std_hash p)
  | call_operator_eq a b => after (operator_eq a b)
  | call_operator_ne a b => after (operator_ne a b)
  | call_clone p => after (EstrUniquePtr_clone p)
  | call_dtor p => after (EstrUniquePtr_dtor p)
  end.

(** One call of the interface that does not fault. *)
Definition api_step (st st' : state) : Prop :=
  exists c, run_call c st = Some st'.

(** The stores a program can be in: any number of calls from the empty one. *)
Definition reachable (st : state) : Prop := rtc api_step initial_state st.

(** What a computation may do to the store: nothing, ... *)
Definition keeps_store {A} (m : M A) : Prop :=
  forall st a st', m st = Ok a st' -> mem st' = mem st.

(** ... or at most release blocks and place constructed headers at unused
    locations; a header already there is never written. *)
Definition frames_store {A} (m : M A) : Prop :=
  forall st a st' l b, m st = Ok a st' -> mem st' !! l = Some b ->
    mem st !! l = Some b \/ (mem st !! l = None /\ block_ok b).

(** The two ways a header comes to be: the literal operator, or [estr_new]. *)
Inductive path := StaticPath | HeapPath.

Definition construct (via : path) (s : list byte) : M EstrPtr :=
  match via with
  | StaticPath => ESTR s
  | HeapPath => estr_new s
  end.

Definition owned_via (via : path) : bool :=
  match via with StaticPath => false | HeapPath => true end.

(** Sample contents: ["hello"], ["a\0b"], ["abc"], ["abd"], and a content
    of [2^31] equal bytes. *)
Definition hello : list byte := [x68; x65; x6c; x6c; x6f].
Definition a_nul_b : list byte := [x61; x00; x62].
Definition abc : list byte := [x61; x62; x63].
Definition abd : list byte := [x61; x62; x64].
Definition oversize (c : byte) : list byte := replicate (Z.to_nat (2 ^ 31)) c.

(** The store after [estr_new("hello")] in the initial state, and after
    [estr_new("abc")] followed by [ESTR("abd")]. *)
Definition hello_state : state :=
  mkState (<[1%positive := block_of true hello]> ∅) [EvAlloc 1%positive 14].

Definition abc_abd_state : state :=
  mkState (<[2%positive := block_of false abd]> (<[1%positive := block_of true abc]> ∅))
          [EvAlloc 1%positive 12].

(** The bytes [view()] shows for a header built from [s]: the first
    [|s| mod 2^31] of them. *)
Definition viewed (s : list byte) : list byte :=
  take (Z.to_nat (Z.of_nat (length s) mod 2 ^ 31)) s.

(** ** Accounting of allocations *)






(** Every header in static storage of the one state is in the other. *)
Definition static_kept (st st' : state) : Prop :=
  forall l b, mem st !! l = Some b -> blk_storage b = Static -> mem st' !! l = Some b.

(** A computation whose every run without fault relates the state it starts
    in to the state it ends in. *)
Definition preserves {A} (R : state -> state -> Prop) (m : M A) : Prop :=
  forall st a st', m st = Ok a st' -> R st st'.

(** * Properties *)

(** ** The packed bit-fields *)

Section Bitfields.
Implicit Types (w n : Z) (v : bool).

Lemma bits_length_set_length n w :
  Z.land (Z.shiftr (bits_set_length n w) 1) (Z.ones 31) = n mod 2 ^ 31.
Proof.
  unfold bits_set_length.
  rewrite Z.shiftr_lor, Z.shiftr_land, Z.shiftr_shiftl_l by lia.
  change (Z.shiftr 1 1) with 0.
  rewrite Z.land_0_r, Z.lor_0_l, Z.shiftl_0_r.
  rewrite Z.land_ones by lia. apply Z.mod_mod. lia.
Qed.

Lemma bits_flag_set_length n w :
  Z.testbit (bits_set_length n w) 0 = Z.testbit w 0.
Proof.
  unfold bits_set_length.
  rewrite Z.lor_spec, Z.land_spec, Z.shiftl_spec_low by lia.
  change (Z.testbit 1 0) with true.
  by rewrite andb_true_r, orb_false_r.
Qed.

Lemma bits_flag_set_needs_disposing v w :
  Z.testbit (bits_set_needs_disposing v w) 0 = v.
Proof.
  unfold bits_set_needs_disposing.
  rewrite Z.lor_spec, Z.ldiff_spec.
  change (Z.testbit 1 0) with true.
  rewrite andb_false_r. by destruct v.
Qed.

Lemma bits_length_set_needs_disposing v w :
  Z.shiftr (bits_set_needs_disposing v w) 1 = Z.shiftr w 1.
Proof.
  unfold bits_set_needs_disposing.
  rewrite Z.shiftr_lor.
  replace (Z.shiftr (Z.b2z v) 1) with 0 by (by destruct v).
  rewrite Z.lor_0_r.
  apply Z.bits_inj'. intros i Hi.
  rewrite !Z.shiftr_spec, Z.ldiff_spec by lia.
  rewrite (Z.bits_above_log2 1 (i + 1)) by (simpl; lia).
  by rewrite andb_true_r.
Qed.

End Bitfields.

Lemma length_set_length n r :
  EstrRawData_length (set_length n r) = n mod 2 ^ 31.
Proof. apply bits_length_set_length. Qed.

Lemma needs_disposing_set_length n r :
  EstrRawData_needs_disposing (set_length n r) = EstrRawData_needs_disposing r.
Proof. apply bits_flag_set_length. Qed.

Lemma needs_disposing_set_needs_disposing v r :
  EstrRawData_needs_disposing (set_needs_disposing v r) = v.
Proof. apply bits_flag_set_needs_disposing. Qed.

Lemma length_set_needs_disposing v r :
  EstrRawData_length (set_needs_disposing v r) = EstrRawData_length r.
Proof.
  unfold EstrRawData_length, set_needs_disposing. simpl.
  by rewrite bits_length_set_needs_disposing.
Qed.

(** ** The hash loop against the polynomial *)

Lemma uint8_range c : 0 <= uint8 c < 256.
Proof. unfold uint8. pose proof (Byte.to_N_bounded c). lia. Qed.

Lemma uint8_x00 : uint8 x00 = 0.
Proof. reflexivity. Qed.

Lemma uint8_inj c d : uint8 c = uint8 d -> c = d.
Proof.
  unfold uint8. intros H. apply N2Z.inj in H.
  assert (Some c = Some d) as [= ->]; [|done].
  by rewrite <- !Byte.of_to_N, H.
Qed.

Lemma c_str_app_nul s rest : x00 ∉ s -> c_str (s ++ x00 :: rest) = s.
Proof.
  induction s as [|c s IH]; intros Hs; simpl; [done|].
  apply not_elem_of_cons in Hs as [Hc Hs].
  rewrite bool_decide_eq_false_2 by done. by rewrite IH.
Qed.

Lemma c_str_nul_free s : x00 ∉ c_str s.
Proof.
  induction s as [|c s IH]; simpl; [apply not_elem_of_nil|].
  case_bool_decide; [apply not_elem_of_nil|].
  apply not_elem_of_cons. auto.
Qed.

Lemma c_str_split s :
  x00 ∈ s -> exists rest, s = c_str s ++ x00 :: rest.
Proof.
  induction s as [|c s IH]; intros Hs; [by apply elem_of_nil in Hs|].
  simpl. case_bool_decide as Hc.
  - subst c. by exists s.
  - apply elem_of_cons in Hs as [Hs|Hs]; [done|].
    destruct (IH Hs) as [rest Hrest]. exists rest. simpl. by f_equal.
Qed.

Lemma c_str_terminated s : c_str (s ++ [x00]) = c_str s.
Proof.
  induction s as [|c s IH]; simpl; [done|].
  case_bool_decide; [done|]. by rewrite IH.
Qed.

Lemma c_str_id s : x00 ∉ s -> c_str s = s.
Proof.
  intros Hs. rewrite <- c_str_terminated. by apply c_str_app_nul.
Qed.

Lemma ascii_string_hash_loop_spec s rest hash i :
  x00 ∉ s -> 0 <= i ->
  ascii_string_hash_loop (s ++ x00 :: rest) (wrap32 hash) (wrap32 (127 ^ i))
  = Some (wrap32 (hash + poly_sum s i)).
Proof.
  revert hash i. induction s as [|c s IH]; intros hash i Hs Hi; simpl.
  - by rewrite Z.add_0_r.
  - apply not_elem_of_cons in Hs as [Hc Hs].
    rewrite bool_decide_eq_false_2 by done.
    replace (wrap32 (wrap32 hash + wrap32 (wrap32 (127 ^ i) * uint8 c)))
      with (wrap32 (hash + uint8 c * 127 ^ i)).
    2:{ unfold wrap32.
        rewrite Z.mul_mod_idemp_l, Z.add_mod_idemp_l, Z.add_mod_idemp_r by lia.
        f_equal. lia. }
    replace (wrap32 (wrap32 (127 ^ i) * 127)) with (wrap32 (127 ^ (i + 1))).
    2:{ unfold wrap32. rewrite Z.mul_mod_idemp_l by lia.
        by rewrite Z.pow_add_r, Z.pow_1_r by lia. }
    rewrite IH by (done || lia). f_equal. f_equal. lia.
Qed.

Lemma ascii_string_hash_loop_no_nul s hash temp :
  x00 ∉ s -> ascii_string_hash_loop s hash temp = None.
Proof.
  revert hash temp. induction s as [|c s IH]; intros hash temp Hs; simpl; [done|].
  apply not_elem_of_cons in Hs as [Hc Hs].
  rewrite bool_decide_eq_false_2 by done. by apply IH.
Qed.

(** On a buffer that holds a NUL, [ascii_string_hash] is the polynomial hash
    of the C string in the buffer. *)
Lemma ascii_string_hash_c_str buf :
  x00 ∈ buf -> ascii_string_hash buf = Some (polynomial_hash (c_str buf)).
Proof.
  intros Hbuf. destruct (c_str_split buf Hbuf) as [rest Hrest].
  rewrite Hrest at 1. unfold ascii_string_hash.
  change 0 with (wrap32 0) at 1. change 1 with (wrap32 (127 ^ 0)).
  rewrite ascii_string_hash_loop_spec by (apply c_str_nul_free || lia).
  done.
Qed.

Lemma ascii_string_hash_terminated s :
  ascii_string_hash (s ++ [x00]) = Some (polynomial_hash (c_str s)).
Proof.
  rewrite ascii_string_hash_c_str by (apply elem_of_app; right; left).
  by rewrite c_str_terminated.
Qed.

(** ** Running the constructors *)

Lemma bind_Ok {A B} (m : M A) (k : A -> M B) st a st' :
  m st = Ok a st' -> bind m k st = k a st'.
Proof. unfold bind. by intros ->. Qed.

Lemma bind_Fault {A B} (m : M A) (k : A -> M B) st f :
  m st = Fault f -> bind m k st = Fault f.
Proof. unfold bind. by intros ->. Qed.

Lemma deref_live l b st :
  mem st !! l = Some b -> deref (Some l) st = Ok (blk_data b) st.
Proof. unfold deref. by intros ->. Qed.

Lemma modify_live l b f st :
  mem st !! l = Some b ->
  modify (Some l) f st
  = Ok tt (mkState (<[l := mkBlock (blk_storage b) (f (blk_data b))]> (mem st))
                   (trace st)).
Proof. unfold modify. by intros ->. Qed.

Lemma modify_insert l b f m t :
  modify (Some l) f (mkState (<[l := b]> m) t)
  = Ok tt (mkState (<[l := mkBlock (blk_storage b) (f (blk_data b))]> m) t).
Proof.
  rewrite (modify_live l b) by apply lookup_insert_eq.
  simpl. by rewrite insert_insert_eq.
Qed.

Lemma memcpy_then_terminate (s : list byte) :
  buf_store (length s) x00 (memcpy [x00] s (length s)) = s ++ [x00].
Proof.
  unfold buf_store, memcpy. rewrite firstn_all.
  rewrite take_app_length. f_equal. f_equal.
  apply drop_ge. rewrite length_app, length_drop. simpl. lia.
Qed.

Lemma EstrRawData_ctor_terminated s :
  EstrRawData_ctor (s ++ [x00]) = Some (header_of false s).
Proof.
  unfold EstrRawData_ctor, EstrRawData_init, set_length, set_needs_disposing,
    set_hash, header_of. cbn [EstrRawData_chars EstrRawData_bits EstrRawData_hash].
  rewrite ascii_string_hash_terminated. do 2 f_equal.
  rewrite length_app. cbn [length]. f_equal. lia.
Qed.

Lemma ESTR_run s st :
  ESTR s st
  = Ok (mkEstrPtr (Some (fresh (dom (mem st)))))
       (mkState (<[fresh (dom (mem st)) := block_of false s]> (mem st)) (trace st)).
Proof.
  unfold ESTR, bind, EstrUniqueStorage_data.
  by rewrite EstrRawData_ctor_terminated.
Qed.

Lemma estr_new_run s st :
  estr_new s st
  = Ok (mkEstrPtr (Some (fresh (dom (mem st)))))
       (mkState (<[fresh (dom (mem st)) := block_of true s]> (mem st))
                (trace st ++ [EvAlloc (fresh (dom (mem st))) (estr_new_size s)])).
Proof.
  unfold estr_new.
  erewrite bind_Ok by reflexivity.
  erewrite bind_Ok by apply modify_insert.
  erewrite bind_Ok by apply modify_insert.
  erewrite bind_Ok by apply modify_insert.
  erewrite bind_Ok by apply modify_insert.
  erewrite bind_Ok by (apply deref_live, lookup_insert_eq).
  cbn [blk_data blk_storage set_chars set_length set_needs_disposing
       EstrRawData_chars EstrRawData_bits EstrRawData_hash EstrRawData_ctor_int
       EstrRawData_init].
  rewrite memcpy_then_terminate, ascii_string_hash_terminated.
  erewrite bind_Ok by reflexivity.
  erewrite bind_Ok by apply modify_insert.
  reflexivity.
Qed.

(** ** Reading a header *)

Lemma EstrRawData_length_range r : 0 <= EstrRawData_length r < 2 ^ 31.
Proof.
  unfold EstrRawData_length. rewrite Z.land_ones by lia.
  apply Z.mod_pos_bound. lia.
Qed.

Lemma header_of_length owned s :
  EstrRawData_length (header_of owned s) = Z.of_nat (length s) mod 2 ^ 31.
Proof. apply bits_length_set_length. Qed.

Lemma header_of_needs_disposing owned s :
  EstrRawData_needs_disposing (header_of owned s) = owned.
Proof.
  unfold EstrRawData_needs_disposing, header_of. cbn [EstrRawData_bits].
  rewrite bits_flag_set_length. by destruct owned.
Qed.

Lemma header_of_length_small owned s :
  Z.of_nat (length s) < 2 ^ 31 ->
  EstrRawData_length (header_of owned s) = Z.of_nat (length s).
Proof. intros Hs. rewrite header_of_length. apply Z.mod_small. lia. Qed.

(** The length field never exceeds the number of content bytes, so the
    [size()] bytes at [data()] lie inside the buffer. *)
Lemma header_of_in_buffer owned s :
  EstrRawData_length (header_of owned s)
  < Z.of_nat (length (EstrRawData_chars (header_of owned s))).
Proof.
  rewrite header_of_length. cbn [header_of EstrRawData_chars].
  rewrite length_app. cbn [length].
  pose proof (Z.mod_le (Z.of_nat (length s)) (2 ^ 31)). lia.
Qed.

Section Reads.
Variables (st : state) (l : loc) (b : block).
Hypothesis Hl : mem st !! l = Some b.

Lemma EstrPtr_size_run :
  EstrPtr_size (mkEstrPtr (Some l)) st = Ok (EstrRawData_length (blk_data b)) st.
Proof. unfold EstrPtr_size. by erewrite bind_Ok by by apply deref_live. Qed.

Lemma EstrPtr_data_run :
  EstrPtr_data (mkEstrPtr (Some l)) st = Ok (EstrRawData_chars (blk_data b)) st.
Proof. unfold EstrPtr_data. by erewrite bind_Ok by by apply deref_live. Qed.

Lemma EstrPtr_needs_disposing_run :
  EstrPtr_needs_disposing (mkEstrPtr (Some l)) st
  = Ok (EstrRawData_needs_disposing (blk_data b)) st.
Proof. unfold EstrPtr_needs_disposing. by erewrite bind_Ok by by apply deref_live. Qed.

Lemma EstrPtr_hash_run :
  EstrPtr_hash (mkEstrPtr (Some l)) st = Ok (EstrRawData_hash (blk_data b)) st.
Proof. unfold EstrPtr_hash. by erewrite bind_Ok by by apply deref_live. Qed.

Lemma EstrPtr_view_run :
  EstrRawData_length (blk_data b) <= Z.of_nat (length (EstrRawData_chars (blk_data b))) ->
  EstrPtr_view (mkEstrPtr (Some l)) st
  = Ok (take (Z.to_nat (EstrRawData_length (blk_data b)))
             (EstrRawData_chars (blk_data b))) st.
Proof.
  intros Hb. unfold EstrPtr_view.
  erewrite bind_Ok by apply EstrPtr_data_run.
  erewrite bind_Ok by apply EstrPtr_size_run.
  by rewrite bool_decide_eq_true_2.
Qed.

End Reads.

(** A read through a handle succeeds only on a live header, and leaves the
    store as it was. *)
Lemma deref_Ok_inv p st r st' :
  deref p st = Ok r st' ->
  st' = st /\ exists l b, p = Some l /\ mem st !! l = Some b /\ r = blk_data b.
Proof.
  unfold deref. destruct p as [l|]; [|done].
  destruct (mem st !! l) as [b|] eqn:Hl; [|done].
  intros [= <- <-]. eauto 6.
Qed.

Lemma deref_null st : deref None st = Fault NullDeref.
Proof. done. Qed.

(** ** [memcmp] *)

Lemma memcmp_bytes_spec n : forall a b : list byte,
  (n <= length a)%nat -> (n <= length b)%nat ->
  exists d, memcmp_bytes a b n = Some d /\ (d = 0 <-> take n a = take n b).
Proof.
  induction n as [|n IH]; intros a b Ha Hb.
  - exists 0. rewrite !take_0. split; [done|]. split; done.
  - destruct a as [|x a]; [simpl in Ha; lia|].
    destruct b as [|y b]; [simpl in Hb; lia|].
    cbn [memcmp_bytes length] in *. case_bool_decide as Hxy.
    + subst y. destruct (IH a b) as (d & Hd & Hiff); [lia..|].
      exists d. split; [done|]. rewrite Hiff. cbn [take]. split.
      * by intros ->.
      * by intros [= ->].
    + exists (uint8 x - uint8 y). split; [done|]. split.
      * intros Hd. destruct Hxy. apply uint8_inj. lia.
      * cbn [take]. by intros [= -> _].
Qed.

(** ** Equality against the reference algorithm *)

Lemma state_eta st : mkState (mem st) (trace st) = st.
Proof. by destruct st. Qed.

Lemma operator_eq_run st la lb ba bb :
  mem st !! la = Some ba -> mem st !! lb = Some bb ->
  in_buffer (blk_data ba) -> in_buffer (blk_data bb) ->
  operator_eq (mkEstrPtr (Some la)) (mkEstrPtr (Some lb)) st
  = Ok (equals_reference (blk_data ba) (blk_data bb)).1
       (mkState (mem st)
                (trace st ++ (equals_reference (blk_data ba) (blk_data bb)).2)).
Proof.
  intros Ha Hb Hina Hinb. unfold operator_eq, equals_reference.
  erewrite bind_Ok by by apply EstrPtr_size_run.
  erewrite bind_Ok by by apply EstrPtr_size_run.
  destruct (decide (EstrRawData_length (blk_data ba) = EstrRawData_length (blk_data bb)))
    as [Hlen|Hlen].
  - rewrite (bool_decide_eq_false_2 (_ <> _)) by tauto.
    rewrite (bool_decide_eq_true_2 (EstrRawData_length _ = _)) by done.
    erewrite bind_Ok by by apply EstrPtr_hash_run.
    erewrite bind_Ok by by apply EstrPtr_hash_run.
    destruct (decide (EstrRawData_hash (blk_data ba) = EstrRawData_hash (blk_data bb)))
      as [Hhash|Hhash].
    + rewrite (bool_decide_eq_false_2 (_ <> _)) by tauto.
      rewrite (bool_decide_eq_true_2 (EstrRawData_hash _ = _)) by done.
      erewrite bind_Ok by by apply EstrPtr_data_run.
      erewrite bind_Ok by by apply EstrPtr_data_run.
      erewrite bind_Ok by by apply EstrPtr_size_run.
      pose proof (EstrRawData_length_range (blk_data ba)) as Hr.
      destruct (memcmp_bytes_spec (Z.to_nat (EstrRawData_length (blk_data ba)))
                  (EstrRawData_chars (blk_data ba)) (EstrRawData_chars (blk_data bb)))
        as (d & Hd & Hiff).
      { unfold in_buffer in Hina. lia. }
      { unfold in_buffer in Hinb. lia. }
      unfold bind, memcmp. rewrite Hd. unfold ret. cbn [fst snd]. f_equal.
      by apply bool_decide_ext.
    + rewrite (bool_decide_eq_true_2 (_ <> _)) by done.
      rewrite (bool_decide_eq_false_2 (EstrRawData_hash _ = _)) by done.
      unfold ret. cbn [fst snd]. by rewrite app_nil_r, state_eta.
  - rewrite (bool_decide_eq_true_2 (_ <> _)) by done.
    rewrite (bool_decide_eq_false_2 (EstrRawData_length _ = _)) by done.
    unfold ret. cbn [fst snd]. by rewrite app_nil_r, state_eta.
Qed.

(** ** The calls of the interface and the states they reach *)

Lemma bind_Ok_inv {A B} (m : M A) (k : A -> M B) st b st' :
  bind m k st = Ok b st' -> exists a st1, m st = Ok a st1 /\ k a st1 = Ok b st'.
Proof. unfold bind. destruct (m st) as [a st1|]; [eauto|done]. Qed.

Lemma keeps_store_ret {A} (a : A) : keeps_store (ret a).
Proof. by intros st a' st' [= _ <-]. Qed.

Lemma keeps_store_fail {A} f : keeps_store (@fail A f).
Proof. by intros st a' st'. Qed.

Lemma keeps_store_in_bounds {A} (o : option A) : keeps_store (in_bounds o).
Proof. destruct o; [apply keeps_store_ret|apply keeps_store_fail]. Qed.

Lemma keeps_store_deref p : keeps_store (deref p).
Proof. intros st r st' H. by apply deref_Ok_inv in H as [-> _]. Qed.

Lemma keeps_store_memcmp a b n : keeps_store (memcmp a b n).
Proof.
  intros st d st'. unfold memcmp.
  destruct (memcmp_bytes a b (Z.to_nat n)); [|done]. by intros [= _ <-].
Qed.

Lemma keeps_store_bind {A B} (m : M A) (k : A -> M B) :
  keeps_store m -> (forall a, keeps_store (k a)) -> keeps_store (bind m k).
Proof.
  intros Hm Hk st b st' H. apply bind_Ok_inv in H as (a & st1 & H1 & H2).
  apply Hm in H1. apply Hk in H2. congruence.
Qed.

Lemma keeps_store_if {A} (c : bool) (m1 m2 : M A) :
  keeps_store m1 -> keeps_store m2 -> keeps_store (if c then m1 else m2).
Proof. by destruct c. Qed.

Create HintDb estr_store.
#[local] Hint Resolve keeps_store_ret keeps_store_fail keeps_store_in_bounds
  keeps_store_deref keeps_store_memcmp keeps_store_if : estr_store.
#[local] Hint Extern 2 (keeps_store (bind _ _)) =>
  apply keeps_store_bind; [|intros ?] : estr_store.

Lemma keeps_store_size p : keeps_store (EstrPtr_size p).
Proof. unfold EstrPtr_size. auto with estr_store. Qed.

Lemma keeps_store_data p : keeps_store (EstrPtr_data p).
Proof. unfold EstrPtr_data. auto with estr_store. Qed.

Lemma keeps_store_needs_disposing p : keeps_store (EstrPtr_needs_disposing p).
Proof. unfold EstrPtr_needs_disposing. auto with estr_store. Qed.

Lemma keeps_store_hash p : keeps_store (EstrPtr_hash p).
Proof. unfold EstrPtr_hash. auto with estr_store. Qed.

#[local] Hint Resolve keeps_store_size keeps_store_data
  keeps_store_needs_disposing keeps_store_hash : estr_store.

Lemma keeps_store_view p : keeps_store (EstrPtr_view p).
Proof. unfold EstrPtr_view. auto 8 with estr_store. Qed.

Lemma keeps_store_operator_eq a b : keeps_store (operator_eq a b).
Proof. unfold operator_eq. auto 20 with estr_store. Qed.

Lemma keeps_store_operator_ne a b : keeps_store (operator_ne a b).
Proof.
  unfold operator_ne. apply keeps_store_bind; [apply keeps_store_operator_eq|].
  intros e. apply keeps_store_ret.
Qed.

Lemma keeps_frames {A} (m : M A) : keeps_store m -> frames_store m.
Proof. intros Hm st a st' l b H Hl. left. by rewrite <- (Hm _ _ _ H). Qed.

Lemma frames_store_bind {A B} (m : M A) (k : A -> M B) :
  keeps_store m -> (forall a, frames_store (k a)) -> frames_store (bind m k).
Proof.
  intros Hm Hk st b st' l blk H Hl. apply bind_Ok_inv in H as (a & st1 & H1 & H2).
  apply Hm in H1. rewrite <- H1. by eapply Hk.
Qed.

Lemma fresh_unused st : mem st !! fresh (dom (mem st)) = None.
Proof. apply not_elem_of_dom, is_fresh. Qed.

Lemma frames_store_ESTR s : frames_store (ESTR s).
Proof.
  intros st a st' l b. rewrite ESTR_run. intros [= _ <-]. cbn [mem].
  destruct (decide (l = fresh (dom (mem st)))) as [->|Hne].
  - rewrite lookup_insert_eq. intros [= <-]. right.
    split; [apply fresh_unused|by exists false, s].
  - rewrite lookup_insert_ne by done. auto.
Qed.

Lemma frames_store_estr_new s : frames_store (estr_new s).
Proof.
  intros st a st' l b. rewrite estr_new_run. intros [= _ <-]. cbn [mem].
  destruct (decide (l = fresh (dom (mem st)))) as [->|Hne].
  - rewrite lookup_insert_eq. intros [= <-]. right.
    split; [apply fresh_unused|by exists true, s].
  - rewrite lookup_insert_ne by done. auto.
Qed.

Lemma frames_store_estr_unique_new s : frames_store (estr_unique_new s).
Proof.
  intros st a st' l b H. unfold estr_unique_new in H.
  apply bind_Ok_inv in H as (p & st1 & H1 & [= _ <-]).
  by eapply frames_store_estr_new.
Qed.

Lemma frames_store_delete p : frames_store (delete_char_array p).
Proof.
  intros st a st' l b. unfold delete_char_array.
  destruct p as [l0|]; [|intros [= _ <-]; auto].
  destruct (mem st !! l0) as [[[] r]|]; [done| |done].
  intros [= _ <-]. cbn [mem].
  destruct (decide (l = l0)) as [->|Hne].
  - by rewrite lookup_delete_eq.
  - rewrite lookup_delete_ne by done. auto.
Qed.

Lemma frames_store_destroy p : frames_store (EstrPtr_destroy p).
Proof.
  unfold EstrPtr_destroy.
  apply frames_store_bind; [apply keeps_store_needs_disposing|].
  intros [].
  - apply frames_store_delete.
  - apply keeps_frames, keeps_store_ret.
Qed.

Lemma frames_store_clone p : frames_store (EstrUniquePtr_clone p).
Proof.
  unfold EstrUniquePtr_clone.
  apply frames_store_bind; [apply keeps_store_view|].
  intros v. apply frames_store_estr_unique_new.
Qed.

Lemma after_Some {A} (m : M A) st st' :
  after m st = Some st' -> exists a, m st = Ok a st'.
Proof. unfold after. destruct (m st) as [a st1|]; [|done]. intros [= <-]. eauto. Qed.

(** A call leaves every header that was there either as it was or released;
    what it adds is a constructed header at a location that was unused. *)
Lemma api_step_frame st st' l b :
  api_step st st' -> mem st' !! l = Some b ->
  mem st !! l = Some b \/ (mem st !! l = None /\ block_ok b).
Proof.
  intros [c Hc] Hl.
  destruct c; cbn [run_call] in Hc; apply after_Some in Hc as [res Hres];
    revert Hres Hl;
    first
      [ apply frames_store_ESTR | apply frames_store_estr_new
      | apply frames_store_estr_unique_new | apply frames_store_destroy
      | apply frames_store_clone
      | apply keeps_frames;
        first [ apply keeps_store_size | apply keeps_store_data
              | apply keeps_store_needs_disposing | apply keeps_store_hash
              | apply keeps_store_view | apply keeps_store_operator_eq
              | apply keeps_store_operator_ne ] ].
Qed.

Lemma api_step_store_ok st st' : api_step st st' -> store_ok st -> store_ok st'.
Proof.
  intros Hstep Hok l b Hl.
  destruct (api_step_frame _ _ _ _ Hstep Hl) as [Hold|[_ Hnew]]; [by eapply Hok|done].
Qed.

Lemma initial_store_ok : store_ok initial_state.
Proof. intros l b Hl. cbn in Hl. by rewrite lookup_empty in Hl. Qed.

Lemma reachable_store_ok st : reachable st -> store_ok st.
Proof.
  unfold reachable. intros H.
  eapply (rtc_ind_r (fun s => store_ok s)); [apply initial_store_ok| |exact H].
  intros y z _ Hstep IH. by eapply api_step_store_ok.
Qed.

(** ** The two construction paths *)

Lemma construct_run via s st :
  exists tr,
    construct via s st
    = Ok (mkEstrPtr (Some (fresh (dom (mem st)))))
         (mkState (<[fresh (dom (mem st)) := block_of (owned_via via) s]> (mem st)) tr).
Proof.
  destruct via; cbn [construct owned_via].
  - rewrite ESTR_run. eauto.
  - rewrite estr_new_run. eauto.
Qed.

Lemma polynomial_hash_range s : 0 <= polynomial_hash s < 2 ^ 32.
Proof. apply Z.mod_pos_bound. lia. Qed.

(** ** Contents, views and oversize contents *)

Lemma viewed_length s :
  Z.of_nat (length (viewed s)) = Z.of_nat (length s) mod 2 ^ 31.
Proof.
  unfold viewed. pose proof (Z.mod_le (Z.of_nat (length s)) (2 ^ 31)).
  pose proof (Z.mod_pos_bound (Z.of_nat (length s)) (2 ^ 31)).
  rewrite length_take_le by lia. lia.
Qed.

Lemma viewed_small s : Z.of_nat (length s) < 2 ^ 31 -> viewed s = s.
Proof.
  intros Hs. unfold viewed. rewrite Z.mod_small by lia.
  rewrite Nat2Z.id. apply firstn_all.
Qed.

Lemma viewed_viewed s : viewed (viewed s) = viewed s.
Proof.
  apply viewed_small. rewrite viewed_length.
  apply Z.mod_pos_bound. lia.
Qed.

Lemma EstrPtr_view_block_of st l owned s :
  mem st !! l = Some (block_of owned s) ->
  EstrPtr_view (mkEstrPtr (Some l)) st = Ok (viewed s) st.
Proof.
  intros Hl. erewrite EstrPtr_view_run by first [exact Hl|
    pose proof (header_of_in_buffer owned s); cbn [block_of blk_data]; lia].
  cbn [block_of blk_data]. rewrite header_of_length.
  cbn [header_of EstrRawData_chars]. unfold viewed.
  rewrite take_app_le; [done|].
  pose proof (Z.mod_le (Z.of_nat (length s)) (2 ^ 31)).
  pose proof (Z.mod_pos_bound (Z.of_nat (length s)) (2 ^ 31)). lia.
Qed.

Lemma oversize_length c : Z.of_nat (length (oversize c)) = 2 ^ 31.
Proof. unfold oversize. rewrite length_replicate. apply Z2Nat.id. lia. Qed.

Lemma oversize_nonempty c : oversize c <> [].
Proof.
  intros H. pose proof (oversize_length c) as Hlen.
  rewrite H in Hlen. cbn [length] in Hlen. lia.
Qed.

Lemma c_str_replicate_nul (n : nat) :
  n <> 0%nat -> c_str (replicate n x00) = [].
Proof. by destruct n. Qed.

Lemma oversize_nul_c_str : c_str (oversize x00) = [].
Proof. apply c_str_replicate_nul. lia. Qed.

Lemma header_of_oversize_length owned c :
  EstrRawData_length (header_of owned (oversize c)) = 0.
Proof. rewrite header_of_length, oversize_length. apply Z.mod_same. lia. Qed.

(** ** Equality on constructed headers *)

Lemma equals_reference_same_bytes o1 o2 s1 s2 :
  Z.of_nat (length s1) < 2 ^ 31 -> Z.of_nat (length s2) < 2 ^ 31 ->
  (equals_reference (header_of o1 s1) (header_of o2 s2)).1 = bool_decide (s1 = s2).
Proof.
  intros H1 H2. unfold equals_reference.
  rewrite !header_of_length_small by done.
  cbn [header_of EstrRawData_hash EstrRawData_chars].
  case_bool_decide as Hlen.
  - case_bool_decide as Hhash; cbn [fst].
    + apply bool_decide_ext. rewrite Nat2Z.id.
      rewrite take_app_length, take_app_length' by lia. done.
    + symmetry. apply bool_decide_eq_false_2. by intros ->.
  - cbn [fst]. symmetry. apply bool_decide_eq_false_2. by intros ->.
Qed.

Lemma header_of_empty_length owned :
  EstrRawData_length (header_of owned []) = 0.
Proof. by rewrite header_of_length. Qed.

Lemma equals_reference_oversize_empty o1 o2 :
  (equals_reference (header_of o1 (oversize x00)) (header_of o2 [])).1 = true.
Proof.
  unfold equals_reference.
  rewrite header_of_oversize_length, header_of_empty_length.
  rewrite (bool_decide_eq_true_2 (0 = 0)) by done.
  cbn [header_of EstrRawData_hash EstrRawData_chars].
  rewrite oversize_nul_c_str.
  rewrite (bool_decide_eq_true_2 (polynomial_hash [] = _)) by done.
  cbn [fst]. change (Z.to_nat 0) with 0%nat. rewrite !take_0.
  by apply bool_decide_eq_true_2.
Qed.

Lemma construct_two_run via1 via2 s1 s2 st :
  exists l1 l2 st2,
    l1 <> l2 /\
    mem st2 !! l1 = Some (block_of (owned_via via1) s1) /\
    mem st2 !! l2 = Some (block_of (owned_via via2) s2) /\
    forall (A : Type) (k : EstrPtr -> EstrPtr -> M A),
      (a <- construct via1 s1 ;; b <- construct via2 s2 ;; k a b) st
      = k (mkEstrPtr (Some l1)) (mkEstrPtr (Some l2)) st2.
Proof.
  destruct (construct_run via1 s1 st) as [tr1 Hc1].
  set (l1 := fresh (dom (mem st))) in *.
  set (st1 := mkState (<[l1 := block_of (owned_via via1) s1]> (mem st)) tr1) in *.
  destruct (construct_run via2 s2 st1) as [tr2 Hc2].
  set (l2 := fresh (dom (mem st1))) in *.
  assert (l1 <> l2) as Hne.
  { intros Heq. pose proof (fresh_unused st1) as Hf. fold l2 in Hf.
    rewrite <- Heq in Hf. subst st1. cbn [mem] in Hf.
    by rewrite lookup_insert_eq in Hf. }
  exists l1, l2, (mkState (<[l2 := block_of (owned_via via2) s2]> (mem st1)) tr2).
  split; [done|]. split; [|split].
  - cbn [mem]. rewrite lookup_insert_ne by done. subst st1. cbn [mem].
    apply lookup_insert_eq.
  - cbn [mem]. apply lookup_insert_eq.
  - intros A k. erewrite bind_Ok by exact Hc1. erewrite bind_Ok by exact Hc2.
    reflexivity.
Qed.

Lemma operator_eq_block_of st la lb oa ob sa sb :
  mem st !! la = Some (block_of oa sa) ->
  mem st !! lb = Some (block_of ob sb) ->
  operator_eq (mkEstrPtr (Some la)) (mkEstrPtr (Some lb)) st
  = Ok (equals_reference (header_of oa sa) (header_of ob sb)).1
       (mkState (mem st)
                (trace st ++ (equals_reference (header_of oa sa) (header_of ob sb)).2)).
Proof.
  intros Ha Hb.
  rewrite (operator_eq_run st la lb _ _ Ha Hb); [done|..];
    unfold in_buffer; cbn [block_of blk_data].
  - pose proof (header_of_in_buffer oa sa). lia.
  - pose proof (header_of_in_buffer ob sb). lia.
Qed.

Lemma EstrPtr_destroy_block_of st l owned s :
  mem st !! l = Some (block_of owned s) ->
  EstrPtr_destroy (mkEstrPtr (Some l)) st
  = Ok tt (if owned then mkState (delete l (mem st)) (trace st ++ [EvFree l])
           else st).
Proof.
  intros Hl. unfold EstrPtr_destroy.
  erewrite bind_Ok by by apply EstrPtr_needs_disposing_run.
  cbn [block_of blk_data]. rewrite header_of_needs_disposing.
  destruct owned; [|done].
  unfold delete_char_array. cbn [_raw_data]. by rewrite Hl.
Qed.

(** * The claims of the specification *)

(** C1, counterexample.  For the content ["a\0b"] [estr_new] stores length 3
    and the three bytes, but the hash loop stops at the embedded NUL: the
    cached hash is 97, while the polynomial over the three bytes is
    97 + 98 * 127^2 = 1580739. *)
Lemma stored_hash_stops_at_embedded_nul :
  exists p st h v,
    estr_new a_nul_b initial_state = Ok p st /\
    EstrPtr_size p st = Ok 3 st /\
    EstrPtr_view p st = Ok v st /\ v = a_nul_b /\
    EstrPtr_hash p st = Ok h st /\ h = 97 /\
    polynomial_hash v = 1580739 /\
    h <> polynomial_hash v.
Proof.
  eexists _, _, 97, a_nul_b.
  split; [vm_compute; reflexivity|].
  repeat split; try (vm_compute; reflexivity).
  vm_compute. discriminate.
Qed.

(** C1, as amended.  In every store reached through the interface, every
    live header is one built by the static path ([owned = false]) or by
    [estr_new] ([owned = true]) from some content [s]; its cached hash is the
    polynomial hash of the bytes of [s] before the first NUL, hence of all of
    [s] when [s] holds no NUL; and no call of the interface changes it: after
    a call the header is still the same or its block has been released. *)
Theorem stored_hash_is_c_string_hash (st : state) (l : loc) (b : block) :
  reachable st ->
  mem st !! l = Some b ->
  exists owned s,
    b = block_of owned s /\
    EstrRawData_chars (blk_data b) = s ++ [x00] /\
    EstrRawData_hash (blk_data b) = polynomial_hash (c_str s) /\
    ascii_string_hash (EstrRawData_chars (blk_data b))
      = Some (EstrRawData_hash (blk_data b)) /\
    (x00 ∉ s -> EstrRawData_hash (blk_data b) = polynomial_hash s) /\
    (forall st', api_step st st' ->
                 mem st' !! l = Some b \/ mem st' !! l = None).
Proof.
  intros Hreach Hl.
  destruct (reachable_store_ok st Hreach l b Hl) as (owned & s & ->).
  exists owned, s. split; [done|]. split; [done|]. split; [done|].
  split; [apply ascii_string_hash_terminated|]. split.
  - intros Hs. cbn [block_of blk_data header_of EstrRawData_hash].
    by rewrite c_str_id.
  - intros st' Hstep. destruct (mem st' !! l) as [b'|] eqn:Hl'; [|by right].
    left. destruct (api_step_frame _ _ _ _ Hstep Hl') as [Hsame|[Hnone _]]; congruence.
Qed.

Lemma stored_hash_is_c_string_hash_witness :
  exists owned s,
    block_of true hello = block_of owned s /\
    EstrRawData_chars (blk_data (block_of true hello)) = s ++ [x00] /\
    EstrRawData_hash (blk_data (block_of true hello)) = polynomial_hash (c_str s) /\
    ascii_string_hash (EstrRawData_chars (blk_data (block_of true hello)))
      = Some (EstrRawData_hash (blk_data (block_of true hello))) /\
    (x00 ∉ s -> EstrRawData_hash (blk_data (block_of true hello)) = polynomial_hash s) /\
    (forall st', api_step hello_state st' ->
                 mem st' !! 1%positive = Some (block_of true hello)
                 \/ mem st' !! 1%positive = None).
Proof.
  apply (stored_hash_is_c_string_hash hello_state 1%positive (block_of true hello)).
  - eapply rtc_l; [|apply rtc_refl].
    exists (call_estr_new hello). vm_compute. reflexivity.
  - vm_compute. reflexivity.
Defined.

(** C2.  The move constructor hands the header to the destination and leaves
    the source null, but the destructor of the moved-from source is not a
    no-op: [destroy()] asks [needs_disposing()], which reads the header
    through the null pointer. *)
Theorem moved_from_dtor_null_deref :
  (forall (u : EstrUniquePtr) (st : state),
      (EstrUniquePtr_move u).1 = u /\
      _raw_data (EstrUniquePtr_move u).2 = None /\
      EstrUniquePtr_dtor (EstrUniquePtr_move u).2 st = Fault NullDeref) /\
  (u <- estr_unique_new [x78] ;;
   EstrUniquePtr_dtor (EstrUniquePtr_move u).2) initial_state = Fault NullDeref.
Proof.
  split; [|reflexivity].
  intros [p] st. done.
Qed.

(** C3, counterexample.  A content of [2^31] NUL bytes gets the length field
    [2^31 mod 2^31 = 0] and the hash 0, as the empty content does; their
    views compare equal although the byte sequences differ. *)
Lemma operator_eq_oversize_equals_empty :
  oversize x00 <> [] /\
  Z.of_nat (length (oversize x00)) = 2 ^ 31 /\
  exists st',
    (a <- estr_new (oversize x00) ;; b <- estr_new [] ;; operator_eq a b)
      initial_state = Ok true st'.
Proof.
  split; [apply oversize_nonempty|]. split; [apply oversize_length|].
  destruct (construct_two_run HeapPath HeapPath (oversize x00) [] initial_state)
    as (l1 & l2 & st2 & Hne & Hl1 & Hl2 & Hrun).
  cbn [construct] in Hrun. rewrite Hrun.
  rewrite (operator_eq_block_of _ _ _ _ _ _ _ Hl1 Hl2).
  rewrite equals_reference_oversize_empty. eauto.
Qed.

(** C3, as amended.  For contents of at most [2^31 - 1] bytes, whichever
    path builds each header, [operator==] on the two views returns true
    exactly when the contents are the same byte sequence. *)
Theorem operator_eq_iff_same_bytes
    (via1 via2 : path) (s1 s2 : list byte) (st : state) :
  Z.of_nat (length s1) <= 2 ^ 31 - 1 ->
  Z.of_nat (length s2) <= 2 ^ 31 - 1 ->
  exists st',
    (a <- construct via1 s1 ;; b <- construct via2 s2 ;; operator_eq a b) st
    = Ok (bool_decide (s1 = s2)) st'.
Proof.
  intros H1 H2.
  destruct (construct_two_run via1 via2 s1 s2 st)
    as (l1 & l2 & st2 & Hne & Hl1 & Hl2 & Hrun).
  rewrite Hrun, (operator_eq_block_of _ _ _ _ _ _ _ Hl1 Hl2).
  rewrite equals_reference_same_bytes by lia. eauto.
Qed.

Lemma operator_eq_iff_same_bytes_witness :
  Z.of_nat (length abc) <= 2 ^ 31 - 1 /\
  Z.of_nat (length abd) <= 2 ^ 31 - 1 /\
  exists st',
    (a <- construct HeapPath abc ;; b <- construct StaticPath abd ;; operator_eq a b)
      initial_state
    = Ok (bool_decide (abc = abd)) st'.
Proof.
  assert (Z.of_nat (length abc) <= 2 ^ 31 - 1) as H1 by (vm_compute; discriminate).
  assert (Z.of_nat (length abd) <= 2 ^ 31 - 1) as H2 by (vm_compute; discriminate).
  split; [exact H1|]. split; [exact H2|].
  exact (operator_eq_iff_same_bytes HeapPath StaticPath abc abd initial_state H1 H2).
Defined.

(** C4. The hash is a function of the byte content alone: constructing the
    same content twice, by either path and in any two stores, caches the same
    32-bit value, which is what [ascii_string_hash] yields on the terminated
    content; the static and the runtime path agree; and the empty string
    hashes to 0 on both. *)
Theorem hash_deterministic_across_paths :
  (forall (s : list byte) (via1 via2 : path) (st1 st2 : state),
      exists h st1' st2',
        (p <- construct via1 s ;; EstrPtr_hash p) st1 = Ok h st1' /\
        (p <- construct via2 s ;; EstrPtr_hash p) st2 = Ok h st2' /\
        ascii_string_hash (s ++ [x00]) = Some h /\
        0 <= h < 2 ^ 32) /\
  (forall (via : path) (st : state),
      exists st', (p <- construct via [] ;; EstrPtr_hash p) st = Ok 0 st') /\
  ascii_string_hash [x00] = Some 0.
Proof.
  assert (forall s via st, exists st',
             (p <- construct via s ;; EstrPtr_hash p) st
             = Ok (polynomial_hash (c_str s)) st') as Hrun.
  { intros s via st. destruct (construct_run via s st) as [tr Hc].
    eexists. erewrite bind_Ok by exact Hc.
    erewrite EstrPtr_hash_run by apply lookup_insert_eq. reflexivity. }
  split; [|split].
  - intros s via1 via2 st1 st2.
    destruct (Hrun s via1 st1) as [st1' H1], (Hrun s via2 st2) as [st2' H2].
    exists (polynomial_hash (c_str s)), st1', st2'.
    split; [done|]. split; [done|].
    split; [apply ascii_string_hash_terminated|apply polynomial_hash_range].
  - intros via st. apply (Hrun [] via st).
  - reflexivity.
Qed.

(** C5.  On two live headers of a reachable store, [operator==] is the
    three-stage reference algorithm, result and byte comparisons alike:
    different lengths give false and leave the trace untouched; equal lengths
    with different hashes likewise; otherwise one [memcmp] over [length]
    bytes decides. *)
Theorem operator_eq_three_stage (st : state) (la lb : loc) (ba bb : block) :
  reachable st ->
  mem st !! la = Some ba ->
  mem st !! lb = Some bb ->
  operator_eq (mkEstrPtr (Some la)) (mkEstrPtr (Some lb)) st
  = Ok (equals_reference (blk_data ba) (blk_data bb)).1
       (mkState (mem st)
                (trace st ++ (equals_reference (blk_data ba) (blk_data bb)).2)) /\
  (EstrRawData_length (blk_data ba) <> EstrRawData_length (blk_data bb) ->
   operator_eq (mkEstrPtr (Some la)) (mkEstrPtr (Some lb)) st = Ok false st) /\
  (EstrRawData_length (blk_data ba) = EstrRawData_length (blk_data bb) ->
   EstrRawData_hash (blk_data ba) <> EstrRawData_hash (blk_data bb) ->
   operator_eq (mkEstrPtr (Some la)) (mkEstrPtr (Some lb)) st = Ok false st) /\
  (EstrRawData_length (blk_data ba) = EstrRawData_length (blk_data bb) ->
   EstrRawData_hash (blk_data ba) = EstrRawData_hash (blk_data bb) ->
   operator_eq (mkEstrPtr (Some la)) (mkEstrPtr (Some lb)) st
   = Ok (bool_decide
           (take (Z.to_nat (EstrRawData_length (blk_data ba)))
                 (EstrRawData_chars (blk_data ba))
            = take (Z.to_nat (EstrRawData_length (blk_data ba)))
                   (EstrRawData_chars (blk_data bb))))
        (mkState (mem st)
                 (trace st ++ [EvMemcmp (EstrRawData_length (blk_data ba))]))).
Proof.
  intros Hreach Ha Hb.
  assert (operator_eq (mkEstrPtr (Some la)) (mkEstrPtr (Some lb)) st
          = Ok (equals_reference (blk_data ba) (blk_data bb)).1
               (mkState (mem st)
                  (trace st ++ (equals_reference (blk_data ba) (blk_data bb)).2)))
    as Hrun.
  { pose proof (reachable_store_ok st Hreach) as Hok.
    destruct (Hok la ba Ha) as (oa & sa & ->), (Hok lb bb Hb) as (ob & sb & ->).
    by apply operator_eq_block_of. }
  split; [exact Hrun|]. rewrite Hrun. unfold equals_reference.
  split; [|split].
  - intros Hlen. rewrite bool_decide_eq_false_2 by done.
    cbn [fst snd]. by rewrite app_nil_r, state_eta.
  - intros Hlen Hhash. rewrite bool_decide_eq_true_2 by done.
    rewrite bool_decide_eq_false_2 by done.
    cbn [fst snd]. by rewrite app_nil_r, state_eta.
  - intros Hlen Hhash. by rewrite !bool_decide_eq_true_2 by done.
Qed.

Lemma operator_eq_three_stage_witness :
  operator_eq (mkEstrPtr (Some 1%positive)) (mkEstrPtr (Some 2%positive)) abc_abd_state
  = Ok false abc_abd_state.
Proof.
  assert (reachable abc_abd_state) as Hreach.
  { eapply rtc_l; [exists (call_estr_new abc); reflexivity|].
    eapply rtc_l; [|apply rtc_refl].
    exists (call_ESTR abd). vm_compute. reflexivity. }
  assert (mem abc_abd_state !! 1%positive = Some (block_of true abc)) as Ha
    by (vm_compute; reflexivity).
  assert (mem abc_abd_state !! 2%positive = Some (block_of false abd)) as Hb
    by (vm_compute; reflexivity).
  destruct (operator_eq_three_stage abc_abd_state 1%positive 2%positive _ _ Hreach Ha Hb)
    as (_ & _ & Hhash & _).
  apply Hhash; vm_compute; [reflexivity|discriminate].
Defined.

(** C6.  On a live header of a reachable store, [destroy()] releases the
    block exactly when the header's [needs_disposing] flag is set: with the
    flag the block leaves the store and one release is traced; without it the
    store and the trace are unchanged.  In particular a view of a static
    header, claimed into an [EstrUniquePtr] and destroyed, releases nothing. *)
Theorem destroy_frees_iff_needs_disposing
    (st : state) (l : loc) (b : block) (literal : list byte) :
  reachable st ->
  mem st !! l = Some b ->
  (exists st',
      EstrPtr_destroy (mkEstrPtr (Some l)) st = Ok tt st' /\
      (EstrRawData_needs_disposing (blk_data b) = true ->
       mem st' = delete l (mem st) /\ trace st' = trace st ++ [EvFree l]) /\
      (EstrRawData_needs_disposing (blk_data b) = false -> st' = st) /\
      (mem st' !! l = None <-> EstrRawData_needs_disposing (blk_data b) = true)) /\
  (exists p st1,
      ESTR literal st = Ok p st1 /\
      EstrPtr_needs_disposing p st1 = Ok false st1 /\
      EstrUniquePtr_dtor (EstrUniquePtr_claim p) st1 = Ok tt st1).
Proof.
  intros Hreach Hl. split.
  - destruct (reachable_store_ok st Hreach l b Hl) as (owned & s & ->).
    eexists. split; [apply (EstrPtr_destroy_block_of _ _ _ _ Hl)|].
    cbn [block_of blk_data]. rewrite header_of_needs_disposing.
    destruct owned.
    + split; [done|]. split; [done|]. cbn [mem]. by rewrite lookup_delete_eq.
    + split; [done|]. split; [done|]. by rewrite Hl.
  - rewrite ESTR_run. eexists _, _. split; [reflexivity|].
    split.
    + erewrite EstrPtr_needs_disposing_run by apply lookup_insert_eq.
      cbn [block_of blk_data]. by rewrite header_of_needs_disposing.
    + unfold EstrUniquePtr_dtor, EstrUniquePtr_get, EstrUniquePtr_claim,
        EstrPtr_create_from_raw_data. cbn [_raw_data].
      by erewrite EstrPtr_destroy_block_of by apply lookup_insert_eq.
Qed.

Lemma destroy_frees_iff_needs_disposing_witness :
  exists st',
    EstrPtr_destroy (mkEstrPtr (Some 1%positive)) hello_state = Ok tt st' /\
    mem st' !! 1%positive = None /\
    trace st' = [EvAlloc 1%positive 14; EvFree 1%positive].
Proof.
  assert (reachable hello_state) as Hreach.
  { eapply rtc_l; [|apply rtc_refl].
    exists (call_estr_new hello). vm_compute. reflexivity. }
  assert (mem hello_state !! 1%positive = Some (block_of true hello)) as Hl
    by (vm_compute; reflexivity).
  destruct (destroy_frees_iff_needs_disposing hello_state 1%positive _ hello Hreach Hl)
    as [(st' & Hrun & Hfree & _ & Hiff) _].
  exists st'. split; [exact Hrun|].
  assert (EstrRawData_needs_disposing (blk_data (block_of true hello)) = true) as Hflag
    by (vm_compute; reflexivity).
  split; [by apply Hiff|]. by apply Hfree.
Defined.

(** C7, counterexample.  The length field keeps [|s| mod 2^31] and the hash
    loop stops at the first NUL: for ["a\0b"] the cached hash is not the
    polynomial hash of the three copied bytes, and for a content of [2^31]
    bytes the stored length is 0. *)
Lemma estr_new_hash_and_length_counterexample :
  (exists p st h,
      estr_new a_nul_b initial_state = Ok p st /\
      EstrPtr_hash p st = Ok h st /\
      h <> polynomial_hash a_nul_b) /\
  (exists p st,
      estr_new (oversize x61) initial_state = Ok p st /\
      EstrPtr_size p st = Ok 0 st /\
      0 <> Z.of_nat (length (oversize x61))).
Proof.
  split.
  - eexists _, _, 97. split; [vm_compute; reflexivity|].
    split; [vm_compute; reflexivity|]. vm_compute. discriminate.
  - rewrite estr_new_run. eexists _, _. split; [reflexivity|].
    split.
    + erewrite EstrPtr_size_run by apply lookup_insert_eq.
      cbn [block_of blk_data]. by rewrite header_of_oversize_length.
    + rewrite oversize_length. lia.
Qed.

(** C7, as amended.  [estr_new(s)] takes a block of
    [max(sizeof(header), offsetof(chars) + |s| + 1)] bytes at an unused
    location, which holds the fixed fields and [|s| + 1] characters; the
    header it leaves there has the bytes of [s] followed by a NUL at index
    [|s|], the flag set, the length [|s| mod 2^31] (that is [|s|] up to
    [2^31 - 1] bytes) and as hash the result of [ascii_string_hash] on the
    copied buffer, the polynomial hash of the copied bytes before their first
    NUL.  For ["hello"]: size 5, view ["hello"], hash
    [polynomial_hash("hello")]. *)
Theorem estr_new_builds_header (s : list byte) (st : state) :
  (exists l st' r,
      estr_new s st = Ok (mkEstrPtr (Some l)) st' /\
      mem st !! l = None /\
      mem st' = <[l := mkBlock Heap r]> (mem st) /\
      trace st' = trace st ++ [EvAlloc l (estr_new_size s)] /\
      offsetof_chars + (Z.of_nat (length s) + 1) <= estr_new_size s /\
      sizeof_EstrRawData <= estr_new_size s /\
      EstrRawData_chars r = s ++ [x00] /\
      take (length s) (EstrRawData_chars r) = s /\
      EstrRawData_chars r !! length s = Some x00 /\
      EstrRawData_needs_disposing r = true /\
      EstrRawData_length r = Z.of_nat (length s) mod 2 ^ 31 /\
      ascii_string_hash (EstrRawData_chars r) = Some (EstrRawData_hash r) /\
      EstrRawData_hash r = polynomial_hash (c_str s)) /\
  (exists st',
      (p <- estr_new hello ;; EstrPtr_size p) st = Ok 5 st' /\
      (p <- estr_new hello ;; EstrPtr_view p) st = Ok hello st' /\
      (p <- estr_new hello ;; EstrPtr_hash p) st = Ok (polynomial_hash hello) st').
Proof.
  split.
  - rewrite estr_new_run. eexists _, _, (header_of true s).
    split; [reflexivity|]. split; [apply fresh_unused|].
    split; [reflexivity|]. split; [reflexivity|].
    unfold estr_new_size.
    split; [lia|]. split; [lia|]. split; [reflexivity|].
    cbn [header_of EstrRawData_chars EstrRawData_hash].
    split; [apply take_app_length|].
    split; [by rewrite lookup_app_r, Nat.sub_diag by lia|].
    split; [apply header_of_needs_disposing|].
    split; [apply header_of_length|].
    split; [apply ascii_string_hash_terminated|reflexivity].
  - eexists. rewrite !(bind_Ok _ _ _ _ _ (estr_new_run hello st)).
    erewrite EstrPtr_size_run by apply lookup_insert_eq.
    erewrite EstrPtr_view_block_of by apply lookup_insert_eq.
    erewrite EstrPtr_hash_run by apply lookup_insert_eq.
    split; [|split]; reflexivity.
Qed.

(** C8.  [clone()] of a handle on a live header of a reachable store is
    [estr_unique_new] on the bytes the handle views: it yields a handle on a
    block at a location that was unused, hence other than the original's,
    whose view shows the same bytes; the original header is untouched, and
    destroying the clone afterwards leaves it in place. *)
Theorem clone_is_independent_copy (st : state) (l : loc) (b : block) :
  reachable st ->
  mem st !! l = Some b ->
  exists v l' st',
    EstrPtr_view (mkEstrPtr (Some l)) st = Ok v st /\
    EstrUniquePtr_clone (mkEstrPtr (Some l)) st = Ok (mkEstrPtr (Some l')) st' /\
    estr_unique_new v st = Ok (mkEstrPtr (Some l')) st' /\
    l' <> l /\
    mem st !! l' = None /\
    mem st' !! l = Some b /\
    (exists b', mem st' !! l' = Some b' /\ blk_storage b' = Heap /\
                EstrRawData_needs_disposing (blk_data b') = true) /\
    EstrPtr_view (mkEstrPtr (Some l')) st' = Ok v st' /\
    EstrPtr_view (mkEstrPtr (Some l)) st' = Ok v st' /\
    (exists n, trace st' = trace st ++ [EvAlloc l' n]) /\
    (exists st'', EstrUniquePtr_dtor (mkEstrPtr (Some l')) st' = Ok tt st'' /\
                  mem st'' !! l = Some b /\
                  EstrPtr_view (mkEstrPtr (Some l)) st'' = Ok v st'').
Proof.
  intros Hreach Hl.
  destruct (reachable_store_ok st Hreach l b Hl) as (owned & s & ->).
  pose proof (EstrPtr_view_block_of st l owned s Hl) as Hview.
  set (l' := fresh (dom (mem st))).
  assert (mem st !! l' = None) as Hfresh by apply fresh_unused.
  assert (l' <> l) as Hne by (intros ->; congruence).
  assert (estr_unique_new (viewed s) st
          = Ok (mkEstrPtr (Some l'))
               (mkState (<[l' := block_of true (viewed s)]> (mem st))
                        (trace st ++ [EvAlloc l' (estr_new_size (viewed s))])))
    as Hnew.
  { unfold estr_unique_new. by erewrite bind_Ok by apply estr_new_run. }
  eexists (viewed s), l', _.
  split; [exact Hview|]. split.
  { unfold EstrUniquePtr_clone. erewrite bind_Ok by exact Hview. exact Hnew. }
  split; [exact Hnew|]. split; [exact Hne|]. split; [exact Hfresh|].
  cbn [mem trace].
  split; [by rewrite lookup_insert_ne|].
  split.
  { eexists. split; [apply lookup_insert_eq|]. split; [done|].
    apply header_of_needs_disposing. }
  split.
  { erewrite EstrPtr_view_block_of by apply lookup_insert_eq.
    by rewrite viewed_viewed. }
  split.
  { by erewrite EstrPtr_view_block_of by (cbn [mem]; by rewrite lookup_insert_ne). }
  split; [eauto|].
  eexists. split.
  { unfold EstrUniquePtr_dtor, EstrUniquePtr_get, EstrPtr_create_from_raw_data.
    cbn [_raw_data]. by erewrite EstrPtr_destroy_block_of by apply lookup_insert_eq. }
  cbn [mem]. rewrite delete_insert_eq.
  assert (delete l' (mem st) !! l = Some (block_of owned s)) as Hl'
    by by rewrite lookup_delete_ne.
  split; [exact Hl'|].
  by erewrite EstrPtr_view_block_of by exact Hl'.
Qed.

Lemma clone_is_independent_copy_witness :
  exists v l' st',
    EstrPtr_view (mkEstrPtr (Some 1%positive)) hello_state = Ok v hello_state /\
    EstrUniquePtr_clone (mkEstrPtr (Some 1%positive)) hello_state
    = Ok (mkEstrPtr (Some l')) st' /\
    l' <> 1%positive /\
    EstrPtr_view (mkEstrPtr (Some l')) st' = Ok v st' /\
    EstrPtr_view (mkEstrPtr (Some 1%positive)) st' = Ok v st'.
Proof.
  assert (reachable hello_state) as Hreach.
  { eapply rtc_l; [|apply rtc_refl].
    exists (call_estr_new hello). vm_compute. reflexivity. }
  assert (mem hello_state !! 1%positive = Some (block_of true hello)) as Hl
    by (vm_compute; reflexivity).
  destruct (clone_is_independent_copy hello_state 1%positive _ Hreach Hl)
    as (v & l' & st' & Hview & Hclone & _ & Hne & _ & _ & _ & Hv' & Hv & _).
  exists v, l', st'. repeat split; assumption.
Defined.

(** C9.  [std::hash<EstrPtr>] reads the cached hash field, a 32-bit value,
    without touching the store, and agrees with equality: when [operator==]
    answers true the two cached hashes are the same. *)
Theorem std_hash_consistent_with_eq (st : state) (la lb : loc) (ba bb : block) :
  reachable st ->
  mem st !! la = Some ba ->
  mem st !! lb = Some bb ->
  std_hash (mkEstrPtr (Some la)) st = Ok (EstrRawData_hash (blk_data ba)) st /\
  std_hash (mkEstrPtr (Some lb)) st = Ok (EstrRawData_hash (blk_data bb)) st /\
  0 <= EstrRawData_hash (blk_data ba) < 2 ^ 32 /\
  (forall st', operator_eq (mkEstrPtr (Some la)) (mkEstrPtr (Some lb)) st = Ok true st' ->
               EstrRawData_hash (blk_data ba) = EstrRawData_hash (blk_data bb)).
Proof.
  intros Hreach Ha Hb.
  split; [by apply EstrPtr_hash_run|]. split; [by apply EstrPtr_hash_run|].
  pose proof (reachable_store_ok st Hreach) as Hok.
  destruct (Hok la ba Ha) as (oa & sa & ->), (Hok lb bb Hb) as (ob & sb & ->).
  split; [apply polynomial_hash_range|].
  intros st'. rewrite (operator_eq_block_of _ _ _ _ _ _ _ Ha Hb).
  unfold equals_reference. cbn [block_of blk_data].
  repeat case_bool_decide; cbn [fst]; congruence.
Qed.

Lemma std_hash_consistent_with_eq_witness :
  std_hash (mkEstrPtr (Some 1%positive)) hello_state = Ok (polynomial_hash hello) hello_state.
Proof.
  assert (reachable hello_state) as Hreach.
  { eapply rtc_l; [|apply rtc_refl].
    exists (call_estr_new hello). vm_compute. reflexivity. }
  assert (mem hello_state !! 1%positive = Some (block_of true hello)) as Hl
    by (vm_compute; reflexivity).
  exact (proj1 (std_hash_consistent_with_eq hello_state 1%positive 1%positive _ _ Hreach Hl Hl)).
Defined.

(** C10.  The length occupies 31 bits next to the flag bit: it never exceeds
    [2^31 - 1]; storing [n] into it keeps [n mod 2^31] and leaves the flag
    bit as it was, as storing the flag leaves the length; and for every
    content of at most [2^31 - 1] bytes [estr_new] stores exactly the
    content's size, with the flag set and the whole content in view. *)
Theorem length_field_is_31_bits (s : list byte) (st : state) :
  Z.of_nat (length s) <= 2 ^ 31 - 1 ->
  (exists st',
      (p <- estr_new s ;; EstrPtr_size p) st = Ok (Z.of_nat (length s)) st' /\
      (p <- estr_new s ;; EstrPtr_view p) st = Ok s st' /\
      (p <- estr_new s ;; EstrPtr_needs_disposing p) st = Ok true st') /\
  (forall r, 0 <= EstrRawData_length r <= 2 ^ 31 - 1) /\
  (forall n r,
      EstrRawData_length (set_length n r) = n mod 2 ^ 31 /\
      EstrRawData_needs_disposing (set_length n r) = EstrRawData_needs_disposing r) /\
  (forall n w, Z.testbit (bits_set_length n w) 0 = Z.testbit w 0) /\
  (forall v r, EstrRawData_length (set_needs_disposing v r) = EstrRawData_length r).
Proof.
  intros Hs. split; [|split; [|split; [|split]]].
  - eexists. rewrite !(bind_Ok _ _ _ _ _ (estr_new_run s st)).
    erewrite EstrPtr_size_run by apply lookup_insert_eq.
    erewrite EstrPtr_view_block_of by apply lookup_insert_eq.
    erewrite EstrPtr_needs_disposing_run by apply lookup_insert_eq.
    cbn [block_of blk_data].
    rewrite header_of_length_small, viewed_small by lia.
    by rewrite header_of_needs_disposing.
  - intros r. pose proof (EstrRawData_length_range r). lia.
  - intros n r. split; [apply length_set_length|apply needs_disposing_set_length].
  - apply bits_flag_set_length.
  - apply length_set_needs_disposing.
Qed.

Lemma length_field_is_31_bits_witness :
  exists st', (p <- estr_new hello ;; EstrPtr_size p) initial_state = Ok 5 st'.
Proof.
  assert (Z.of_nat (length hello) <= 2 ^ 31 - 1) as Hs by (vm_compute; discriminate).
  destruct (length_field_is_31_bits hello initial_state Hs) as [(st' & Hsize & _ & _) _].
  exists st'. exact Hsize.
Defined.


(** * Further properties of the code *)

(** ** The hash function and the static constructor *)

(** X1.  [ascii_string_hash] reads a buffer up to its first NUL and no
    further: on [s] followed by a NUL and anything else it is the 32-bit
    polynomial hash of [s]. *)
Theorem ascii_string_hash_stops_at_nul (s rest : list byte) :
  x00 ∉ s ->
  ascii_string_hash (s ++ x00 :: rest) = Some (polynomial_hash s) /\
  0 <= polynomial_hash s < 2 ^ 32.
Proof.
  intros Hs. split; [|apply polynomial_hash_range].
  rewrite ascii_string_hash_c_str by (apply elem_of_app; right; left).
  by rewrite c_str_app_nul.
Qed.

Lemma ascii_string_hash_stops_at_nul_witness :
  ascii_string_hash (hello ++ x00 :: abc) = Some (polynomial_hash hello) /\
  0 <= polynomial_hash hello < 2 ^ 32.
Proof.
  apply (ascii_string_hash_stops_at_nul hello abc).
  intros H. vm_compute in H. repeat (apply elem_of_cons in H as [H|H]; [discriminate|]).
  by apply elem_of_nil in H.
Defined.

(** X2.  On a buffer without a NUL the loop runs off the end, and only
    there: the hash is undefined exactly when the buffer holds no NUL. *)
Theorem ascii_string_hash_needs_terminator (buf : list byte) :
  ascii_string_hash buf = None <-> x00 ∉ buf.
Proof.
  split.
  - intros Hnone Hin. by rewrite ascii_string_hash_c_str in Hnone.
  - apply ascii_string_hash_loop_no_nul.
Qed.

(** X3.  The [consteval] constructor on a character pack that holds a NUL:
    the pack is stored whole, the flag is clear, the length counts every
    character but one, and the hash covers the characters before the first
    NUL only. *)
Theorem EstrRawData_ctor_fields (s rest : list byte) :
  x00 ∉ s ->
  exists r,
    EstrRawData_ctor (s ++ x00 :: rest) = Some r /\
    EstrRawData_chars r = s ++ x00 :: rest /\
    EstrRawData_needs_disposing r = false /\
    EstrRawData_length r = Z.of_nat (length s + length rest) mod 2 ^ 31 /\
    EstrRawData_hash r = polynomial_hash s.
Proof.
  intros Hs. unfold EstrRawData_ctor.
  cbn [EstrRawData_init set_length set_needs_disposing EstrRawData_chars].
  destruct (ascii_string_hash_stops_at_nul s rest Hs) as [-> _].
  eexists. split; [reflexivity|]. split; [reflexivity|].
  split; [|split; [|reflexivity]].
  - unfold EstrRawData_needs_disposing, EstrRawData_init.
    cbn [set_hash set_length set_needs_disposing EstrRawData_bits].
    by rewrite bits_flag_set_length, bits_flag_set_needs_disposing.
  - unfold EstrRawData_length, EstrRawData_init.
    cbn [set_hash set_length set_needs_disposing EstrRawData_bits].
    rewrite bits_length_set_length. f_equal.
    rewrite length_app. cbn [length]. lia.
Qed.

Lemma EstrRawData_ctor_fields_witness :
  exists r,
    EstrRawData_ctor (abc ++ x00 :: abd ++ [x00]) = Some r /\
    EstrRawData_chars r = abc ++ x00 :: abd ++ [x00] /\
    EstrRawData_needs_disposing r = false /\
    EstrRawData_length r = Z.of_nat (length abc + length (abd ++ [x00])) mod 2 ^ 31 /\
    EstrRawData_hash r = polynomial_hash abc.
Proof.
  apply (EstrRawData_ctor_fields abc (abd ++ [x00])).
  intros H. vm_compute in H. repeat (apply elem_of_cons in H as [H|H]; [discriminate|]).
  by apply elem_of_nil in H.
Defined.

(** X4.  A pack without a NUL is rejected by the constructor: the hash
    evaluation leaves the array, so the pack is no constant expression. *)
Theorem EstrRawData_ctor_needs_terminator (Chars : list byte) :
  EstrRawData_ctor Chars = None <-> x00 ∉ Chars.
Proof.
  unfold EstrRawData_ctor.
  cbn [EstrRawData_init set_length set_needs_disposing EstrRawData_chars].
  rewrite <- ascii_string_hash_needs_terminator.
  by destruct (ascii_string_hash Chars).
Qed.

(** ** The character generator behind [ESTR] on MSVC *)

Lemma TmpInstanceVariadicCharGenerator_run (post : list byte) :
  forall (pre chars : list byte) (depth : nat),
    post <> [] -> (length post <= depth)%nat ->
    TmpInstanceVariadicCharGenerator depth (pre ++ post)
      (Z.of_nat (length (pre ++ post))) (Z.of_nat (length pre)) true chars
    = Some (chars ++ post).
Proof.
  induction post as [|c post IH]; intros pre chars depth Hne Hdepth; [done|].
  destruct depth as [|depth]; [cbn [length] in Hdepth; lia|].
  cbn [TmpInstanceVariadicCharGenerator]. rewrite Nat2Z.id.
  rewrite lookup_app_r, Nat.sub_diag by lia. cbn [lookup list_lookup].
  destruct post as [|c' post].
  - rewrite bool_decide_eq_false_2.
    + by destruct depth.
    + rewrite length_app. cbn [length]. lia.
  - rewrite bool_decide_eq_true_2 by (rewrite length_app; cbn [length]; lia).
    replace (Z.of_nat (length pre) + 1) with (Z.of_nat (length (pre ++ [c])))
      by (rewrite length_app; cbn [length]; lia).
    replace (pre ++ c :: c' :: post) with ((pre ++ [c]) ++ c' :: post)
      by by rewrite <- app_assoc.
    rewrite IH; [by rewrite <- app_assoc|done|cbn [length] in *; lia].
Qed.

(** X5.  With an instantiation depth of at least [sizeof(literal)], the
    recursive generator yields the characters of the literal followed by its
    terminator, so the MSVC definition of [ESTR] denotes the same static
    object as the literal operator of the other compilers. *)
Theorem ESTR_msvc_agrees (depth : nat) (literal : list byte) (st : state) :
  (length literal + 1 <= depth)%nat ->
  TmpInstanceVariadicCharGenerator depth (literal ++ [x00])
    (Z.of_nat (length (literal ++ [x00]))) 0 true []
  = Some (literal ++ [x00]) /\
  ESTR_msvc depth literal st = ESTR literal st.
Proof.
  intros Hdepth.
  assert (TmpInstanceVariadicCharGenerator depth (literal ++ [x00])
            (Z.of_nat (length (literal ++ [x00]))) 0 true []
          = Some (literal ++ [x00])) as Hgen.
  { apply (TmpInstanceVariadicCharGenerator_run (literal ++ [x00]) [] [] depth).
    - by destruct literal.
    - rewrite length_app. cbn [length]. lia. }
  split; [exact Hgen|]. unfold ESTR_msvc. cbn zeta. by rewrite Hgen.
Qed.

Lemma ESTR_msvc_agrees_witness :
  ESTR_msvc 6 hello initial_state = ESTR hello initial_state.
Proof.
  assert (length hello + 1 <= 6)%nat as Hdepth by (vm_compute; lia).
  exact (proj2 (ESTR_msvc_agrees 6 hello initial_state Hdepth)).
Defined.

(** ** Equality as a relation *)

Lemma equals_reference_true_iff ra rb :
  (equals_reference ra rb).1 = true <->
  EstrRawData_length ra = EstrRawData_length rb /\
  EstrRawData_hash ra = EstrRawData_hash rb /\
  take (Z.to_nat (EstrRawData_length ra)) (EstrRawData_chars ra)
  = take (Z.to_nat (EstrRawData_length ra)) (EstrRawData_chars rb).
Proof.
  unfold equals_reference.
  destruct (decide (EstrRawData_length ra = EstrRawData_length rb)) as [Hlen|Hlen];
    [rewrite (bool_decide_eq_true_2 _ Hlen)|rewrite (bool_decide_eq_false_2 _ Hlen)];
    [|cbn [fst]; split; [done|tauto]].
  destruct (decide (EstrRawData_hash ra = EstrRawData_hash rb)) as [Hhash|Hhash];
    [rewrite (bool_decide_eq_true_2 _ Hhash)|rewrite (bool_decide_eq_false_2 _ Hhash)];
    [|cbn [fst]; split; [done|tauto]].
  cbn [fst]. rewrite bool_decide_eq_true. tauto.
Qed.

Lemma equals_reference_sym ra rb :
  equals_reference ra rb = equals_reference rb ra.
Proof.
  unfold equals_reference.
  destruct (decide (EstrRawData_length ra = EstrRawData_length rb)) as [Hlen|Hlen].
  - rewrite (bool_decide_eq_true_2 _ Hlen), (bool_decide_eq_true_2 _ (eq_sym Hlen)).
    destruct (decide (EstrRawData_hash ra = EstrRawData_hash rb)) as [Hhash|Hhash].
    + rewrite (bool_decide_eq_true_2 _ Hhash), (bool_decide_eq_true_2 _ (eq_sym Hhash)).
      rewrite Hlen. f_equal. by apply bool_decide_ext.
    + rewrite (bool_decide_eq_false_2 _ Hhash).
      by rewrite bool_decide_eq_false_2 by congruence.
  - rewrite (bool_decide_eq_false_2 _ Hlen).
    by rewrite bool_decide_eq_false_2 by congruence.
Qed.

Lemma operator_eq_reachable st la lb ba bb :
  reachable st -> mem st !! la = Some ba -> mem st !! lb = Some bb ->
  operator_eq (mkEstrPtr (Some la)) (mkEstrPtr (Some lb)) st
  = Ok (equals_reference (blk_data ba) (blk_data bb)).1
       (mkState (mem st)
                (trace st ++ (equals_reference (blk_data ba) (blk_data bb)).2)).
Proof.
  intros Hreach Ha Hb. pose proof (reachable_store_ok st Hreach) as Hok.
  destruct (Hok la ba Ha) as (oa & sa & ->), (Hok lb bb Hb) as (ob & sb & ->).
  by apply operator_eq_block_of.
Qed.

(** X6.  On the live headers of a reachable store [operator==] is an
    equivalence: a view equals itself, the two orders of the operands give
    the same answer and leave the same store, and two true answers chain. *)
Theorem operator_eq_equivalence
    (st : state) (la lb lc : loc) (ba bb bc : block) :
  reachable st ->
  mem st !! la = Some ba ->
  mem st !! lb = Some bb ->
  mem st !! lc = Some bc ->
  (exists st', operator_eq (mkEstrPtr (Some la)) (mkEstrPtr (Some la)) st = Ok true st') /\
  operator_eq (mkEstrPtr (Some la)) (mkEstrPtr (Some lb)) st
  = operator_eq (mkEstrPtr (Some lb)) (mkEstrPtr (Some la)) st /\
  (forall st1 st2,
      operator_eq (mkEstrPtr (Some la)) (mkEstrPtr (Some lb)) st = Ok true st1 ->
      operator_eq (mkEstrPtr (Some lb)) (mkEstrPtr (Some lc)) st = Ok true st2 ->
      exists st3,
        operator_eq (mkEstrPtr (Some la)) (mkEstrPtr (Some lc)) st = Ok true st3).
Proof.
  intros Hreach Ha Hb Hc.
  rewrite !(operator_eq_reachable st _ _ _ _ Hreach Ha Ha),
          !(operator_eq_reachable st _ _ _ _ Hreach Ha Hb),
          !(operator_eq_reachable st _ _ _ _ Hreach Hb Ha),
          !(operator_eq_reachable st _ _ _ _ Hreach Hb Hc),
          !(operator_eq_reachable st _ _ _ _ Hreach Ha Hc).
  split; [|split].
  - eexists. f_equal. by apply equals_reference_true_iff.
  - by rewrite (equals_reference_sym (blk_data ba) (blk_data bb)).
  - intros st1 st2 [= Hab _] [= Hbc _].
    apply equals_reference_true_iff in Hab as (Hl1 & Hh1 & Ht1).
    apply equals_reference_true_iff in Hbc as (Hl2 & Hh2 & Ht2).
    eexists. f_equal. apply equals_reference_true_iff.
    split; [congruence|]. split; [congruence|].
    rewrite Ht1, Hl1. exact Ht2.
Qed.

Lemma operator_eq_equivalence_witness :
  (exists st', operator_eq (mkEstrPtr (Some 1%positive)) (mkEstrPtr (Some 1%positive))
                 abc_abd_state = Ok true st') /\
  operator_eq (mkEstrPtr (Some 1%positive)) (mkEstrPtr (Some 2%positive)) abc_abd_state
  = operator_eq (mkEstrPtr (Some 2%positive)) (mkEstrPtr (Some 1%positive)) abc_abd_state.
Proof.
  assert (reachable abc_abd_state) as Hreach.
  { eapply rtc_l; [exists (call_estr_new abc); reflexivity|].
    eapply rtc_l; [|apply rtc_refl].
    exists (call_ESTR abd). vm_compute. reflexivity. }
  assert (mem abc_abd_state !! 1%positive = Some (block_of true abc)) as Ha
    by (vm_compute; reflexivity).
  assert (mem abc_abd_state !! 2%positive = Some (block_of false abd)) as Hb
    by (vm_compute; reflexivity).
  destruct (operator_eq_equivalence abc_abd_state 1%positive 2%positive 1%positive
              _ _ _ Hreach Ha Hb Ha) as (Hrefl & Hsym & _).
  split; [exact Hrefl|exact Hsym].
Defined.

(** X7.  [operator!=] is the exact complement on contents: for contents of
    at most [2^31 - 1] bytes, built by either path, it answers true exactly
    when the byte sequences differ. *)
Theorem operator_ne_iff_different_bytes
    (via1 via2 : path) (s1 s2 : list byte) (st : state) :
  Z.of_nat (length s1) <= 2 ^ 31 - 1 ->
  Z.of_nat (length s2) <= 2 ^ 31 - 1 ->
  exists st',
    (a <- construct via1 s1 ;; b <- construct via2 s2 ;; operator_ne a b) st
    = Ok (bool_decide (s1 <> s2)) st'.
Proof.
  intros H1 H2.
  destruct (construct_two_run via1 via2 s1 s2 st)
    as (l1 & l2 & st2 & Hne & Hl1 & Hl2 & Hrun).
  rewrite Hrun. unfold operator_ne.
  erewrite bind_Ok by apply (operator_eq_block_of _ _ _ _ _ _ _ Hl1 Hl2).
  rewrite equals_reference_same_bytes by lia.
  rewrite bool_decide_not. eauto.
Qed.

Lemma operator_ne_iff_different_bytes_witness :
  exists st',
    (a <- construct HeapPath abc ;; b <- construct HeapPath abd ;; operator_ne a b)
      initial_state
    = Ok (bool_decide (abc <> abd)) st'.
Proof.
  assert (Z.of_nat (length abc) <= 2 ^ 31 - 1) as H1 by (vm_compute; discriminate).
  assert (Z.of_nat (length abd) <= 2 ^ 31 - 1) as H2 by (vm_compute; discriminate).
  exact (operator_ne_iff_different_bytes HeapPath HeapPath abc abd initial_state H1 H2).
Defined.

(** ** Null and released headers *)

(** X8.  Nothing can be asked of a null handle, such as a moved-from
    [EstrUniquePtr]: every accessor, comparison, hash, copy and release goes
    through the null pointer. *)
Theorem null_handle_faults (q : EstrPtr) (st : state) :
  let null := mkEstrPtr None in
  EstrPtr_size null st = Fault NullDeref /\
  EstrPtr_needs_disposing null st = Fault NullDeref /\
  EstrPtr_hash null st = Fault NullDeref /\
  EstrPtr_view null st = Fault NullDeref /\
  EstrPtr_destroy null st = Fault NullDeref /\
  std_hash null st = Fault NullDeref /\
  std_to_string null st = Fault NullDeref /\
  operator_eq null q st = Fault NullDeref /\
  operator_ne null q st = Fault NullDeref /\
  EstrUniquePtr_clone null st = Fault NullDeref /\
  EstrUniquePtr_clone (EstrUniquePtr_move q).2 st = Fault NullDeref.
Proof. cbn zeta. repeat split. Qed.

Lemma deref_dangling l st :
  mem st !! l = None -> deref (Some l) st = Fault Dangling.
Proof. unfold deref. by intros ->. Qed.

(** X9.  Once the owner of a heap header is destroyed, every handle that
    still points to it dangles: reads, comparison and hashing through a
    borrowed view use released storage, and so does the destructor of a
    second owner claimed from that view. *)
Theorem use_after_release_faults (s : list byte) (st : state) :
  exists p st1 st2,
    estr_unique_new s st = Ok p st1 /\
    EstrUniquePtr_dtor p st1 = Ok tt st2 /\
    EstrPtr_size (EstrUniquePtr_get p) st2 = Fault Dangling /\
    EstrPtr_needs_disposing (EstrUniquePtr_get p) st2 = Fault Dangling /\
    EstrPtr_hash (EstrUniquePtr_get p) st2 = Fault Dangling /\
    EstrPtr_view (EstrUniquePtr_get p) st2 = Fault Dangling /\
    std_hash (EstrUniquePtr_get p) st2 = Fault Dangling /\
    operator_eq (EstrUniquePtr_get p) (EstrUniquePtr_get p) st2 = Fault Dangling /\
    EstrPtr_destroy (EstrUniquePtr_get p) st2 = Fault Dangling /\
    EstrUniquePtr_dtor (EstrUniquePtr_claim (EstrUniquePtr_get p)) st2 = Fault Dangling.
Proof.
  set (l := fresh (dom (mem st))).
  assert (estr_unique_new s st
          = Ok (mkEstrPtr (Some l))
               (mkState (<[l := block_of true s]> (mem st))
                        (trace st ++ [EvAlloc l (estr_new_size s)]))) as Hnew.
  { unfold estr_unique_new. by erewrite bind_Ok by apply estr_new_run. }
  eexists _, _, _. split; [exact Hnew|]. split.
  { unfold EstrUniquePtr_dtor, EstrUniquePtr_get, EstrPtr_create_from_raw_data.
    cbn [_raw_data]. by erewrite EstrPtr_destroy_block_of by apply lookup_insert_eq. }
  cbn [EstrUniquePtr_get EstrUniquePtr_claim EstrPtr_create_from_raw_data _raw_data].
  assert (forall tr, deref (Some l) (mkState (delete l (<[l := block_of true s]> (mem st))) tr)
                     = Fault Dangling) as Hd.
  { intros tr. apply deref_dangling. cbn [mem]. apply lookup_delete_eq. }
  unfold EstrUniquePtr_dtor, EstrUniquePtr_get, EstrPtr_create_from_raw_data,
    EstrPtr_destroy, operator_eq, std_hash, EstrPtr_view, EstrPtr_data,
    EstrPtr_size, EstrPtr_hash, EstrPtr_needs_disposing.
  cbn [_raw_data mem trace].
  repeat split; by rewrite ?(bind_Fault _ _ _ _ (bind_Fault _ _ _ _ (Hd _))),
                          ?(bind_Fault _ _ _ _ (Hd _)).
Qed.

(** X10.  Creating an owned string and destroying it, directly or after a
    move into another handle, gives the store back as it was: the block that
    was taken is the block that is released, once. *)
Theorem create_destroy_round_trip (s : list byte) (st : state) :
  exists p st1 st2 l n,
    estr_unique_new s st = Ok p st1 /\
    _raw_data p = Some l /\
    EstrUniquePtr_dtor p st1 = Ok tt st2 /\
    EstrUniquePtr_dtor (EstrUniquePtr_move p).1 st1 = Ok tt st2 /\
    mem st2 = mem st /\
    trace st2 = trace st ++ [EvAlloc l n; EvFree l].
Proof.
  set (l := fresh (dom (mem st))).
  assert (estr_unique_new s st
          = Ok (mkEstrPtr (Some l))
               (mkState (<[l := block_of true s]> (mem st))
                        (trace st ++ [EvAlloc l (estr_new_size s)]))) as Hnew.
  { unfold estr_unique_new. by erewrite bind_Ok by apply estr_new_run. }
  eexists _, _, _, l, _. split; [exact Hnew|]. split; [reflexivity|].
  assert (forall m t, EstrUniquePtr_dtor (mkEstrPtr (Some l))
                        (mkState (<[l := block_of true s]> m) t)
                      = Ok tt (mkState (delete l (<[l := block_of true s]> m))
                                       (t ++ [EvFree l]))) as Hdtor.
  { intros m t. unfold EstrUniquePtr_dtor, EstrUniquePtr_get,
      EstrPtr_create_from_raw_data. cbn [_raw_data].
    by erewrite EstrPtr_destroy_block_of by apply lookup_insert_eq. }
  split; [apply Hdtor|]. split; [apply Hdtor|].
  cbn [mem trace]. split.
  - apply delete_insert_id, fresh_unused.
  - by rewrite <- app_assoc.
Qed.

(** ** Relations that every call preserves *)

(** A relation on states that is a preorder and that the four primitive
    effects respect (a traced [memcmp], a header placed in static storage, a
    block taken from the heap, a heap block given back) is respected by
    every call of the interface, hence along every sequence of calls. *)
Section Preserved.
Variable R : state -> state -> Prop.
Hypothesis R_refl : forall st, R st st.
Hypothesis R_trans : forall st1 st2 st3, R st1 st2 -> R st2 st3 -> R st1 st3.
Hypothesis R_memcmp : forall st n,
  R st (mkState (mem st) (trace st ++ [EvMemcmp n])).
Hypothesis R_static : forall st l r,
  mem st !! l = None ->
  R st (mkState (<[l := mkBlock Static r]> (mem st)) (trace st)).
Hypothesis R_alloc : forall st l r n,
  mem st !! l = None ->
  R st (mkState (<[l := mkBlock Heap r]> (mem st)) (trace st ++ [EvAlloc l n])).
Hypothesis R_free : forall st l r,
  mem st !! l = Some (mkBlock Heap r) ->
  R st (mkState (delete l (mem st)) (trace st ++ [EvFree l])).

Lemma preserves_ret {A} (a : A) : preserves R (ret a).
Proof. intros st a' st' [= _ <-]. apply R_refl. Qed.

Lemma preserves_fail {A} f : preserves R (@fail A f).
Proof. by intros st a' st'. Qed.

Lemma preserves_deref p : preserves R (deref p).
Proof. intros st r st' H. apply deref_Ok_inv in H as [-> _]. apply R_refl. Qed.

Lemma preserves_memcmp a b n : preserves R (memcmp a b n).
Proof.
  intros st d st'. unfold memcmp.
  destruct (memcmp_bytes a b (Z.to_nat n)); [|done].
  intros [= _ <-]. apply R_memcmp.
Qed.

Lemma preserves_bind {A B} (m : M A) (k : A -> M B) :
  preserves R m -> (forall a, preserves R (k a)) -> preserves R (bind m k).
Proof.
  intros Hm Hk st b st' H. apply bind_Ok_inv in H as (a & st1 & H1 & H2).
  eapply R_trans; [by eapply Hm|by eapply Hk].
Qed.

Lemma preserves_if {A} (c : bool) (m1 m2 : M A) :
  preserves R m1 -> preserves R m2 -> preserves R (if c then m1 else m2).
Proof. by destruct c. Qed.

Lemma preserves_read {A} (f : EstrRawData -> A) p :
  preserves R (r <- deref p ;; ret (f r)).
Proof. apply preserves_bind; [apply preserves_deref|intros r; apply preserves_ret]. Qed.

Lemma preserves_view p : preserves R (EstrPtr_view p).
Proof.
  unfold EstrPtr_view.
  apply preserves_bind; [apply preserves_read|intros d].
  apply preserves_bind; [apply preserves_read|intros n].
  apply preserves_if; [apply preserves_ret|apply preserves_fail].
Qed.

Lemma preserves_operator_eq a b : preserves R (operator_eq a b).
Proof.
  unfold operator_eq.
  apply preserves_bind; [apply preserves_read|intros sa].
  apply preserves_bind; [apply preserves_read|intros sb].
  apply preserves_if; [apply preserves_ret|].
  apply preserves_bind; [apply preserves_read|intros ha].
  apply preserves_bind; [apply preserves_read|intros hb].
  apply preserves_if; [apply preserves_ret|].
  apply preserves_bind; [apply preserves_read|intros da].
  apply preserves_bind; [apply preserves_read|intros db].
  apply preserves_bind; [apply preserves_read|intros n].
  apply preserves_bind; [apply preserves_memcmp|intros d].
  apply preserves_ret.
Qed.

Lemma preserves_ESTR s : preserves R (ESTR s).
Proof.
  intros st a st'. rewrite ESTR_run. intros [= _ <-].
  apply R_static, fresh_unused.
Qed.

Lemma preserves_estr_new s : preserves R (estr_new s).
Proof.
  intros st a st'. rewrite estr_new_run. intros [= _ <-].
  apply R_alloc, fresh_unused.
Qed.

Lemma preserves_estr_unique_new s : preserves R (estr_unique_new s).
Proof.
  unfold estr_unique_new.
  apply preserves_bind; [apply preserves_estr_new|intros p; apply preserves_ret].
Qed.

Lemma preserves_delete p : preserves R (delete_char_array p).
Proof.
  intros st a st'. unfold delete_char_array.
  destruct p as [l|]; [|intros [= _ <-]; apply R_refl].
  destruct (mem st !! l) as [[[] r]|] eqn:Hl; [done| |done].
  intros [= _ <-]. by eapply R_free.
Qed.

Lemma preserves_destroy p : preserves R (EstrPtr_destroy p).
Proof.
  unfold EstrPtr_destroy.
  apply preserves_bind; [apply preserves_read|intros nd].
  apply preserves_if; [apply preserves_delete|apply preserves_ret].
Qed.

Lemma preserves_clone p : preserves R (EstrUniquePtr_clone p).
Proof.
  unfold EstrUniquePtr_clone.
  apply preserves_bind; [apply preserves_view|intros v].
  apply preserves_estr_unique_new.
Qed.

Lemma preserves_api_step st st' : api_step st st' -> R st st'.
Proof.
  intros [c Hc].
  destruct c; cbn [run_call] in Hc; apply after_Some in Hc as [res Hres];
    revert Hres;
    first
      [ apply preserves_ESTR | apply preserves_estr_new
      | apply preserves_estr_unique_new | apply preserves_read
      | apply preserves_view | apply preserves_destroy
      | apply preserves_operator_eq | apply preserves_clone
      | apply preserves_bind;
        [apply preserves_operator_eq|intros e; apply preserves_ret] ].
Qed.

Lemma preserves_api_steps st st' : rtc api_step st st' -> R st st'.
Proof.
  induction 1 as [|st1 st2 st3 Hstep _ IH]; [apply R_refl|].
  eapply R_trans; [by apply preserves_api_step|exact IH].
Qed.

End Preserved.

(** ** Static storage *)

Lemma static_kept_preserved st st' : rtc api_step st st' -> static_kept st st'.
Proof.
  apply preserves_api_steps; clear st st'.
  - by intros st l b.
  - intros st1 st2 st3 H12 H23 l b Hl Hs. apply H23; [by apply H12|done].
  - by intros st n l b.
  - intros st l0 r Hfresh l b Hl Hs. cbn [mem].
    rewrite lookup_insert_ne; [done|congruence].
  - intros st l0 r n Hfresh l b Hl Hs. cbn [mem].
    rewrite lookup_insert_ne; [done|congruence].
  - intros st l0 r Hl0 l b Hl Hs. cbn [mem].
    rewrite lookup_delete_ne; [done|].
    intros ->. rewrite Hl0 in Hl. by injection Hl as <-.
Qed.

(** X11.  No call ever releases or changes a header in static storage: a
    header placed by the literal path stays in the store, as it is, through
    every sequence of calls, whatever handles they are made on. *)
Theorem static_headers_persist (st st' : state) (l : loc) (b : block) :
  rtc api_step st st' ->
  mem st !! l = Some b ->
  blk_storage b = Static ->
  mem st' !! l = Some b /\
  exists r, deref (Some l) st' = Ok r st' /\ r = blk_data b.
Proof.
  intros Hsteps Hl Hs.
  pose proof (static_kept_preserved st st' Hsteps l b Hl Hs) as Hl'.
  split; [exact Hl'|]. exists (blk_data b). split; [by apply deref_live|done].
Qed.

Lemma static_headers_persist_witness :
  mem abc_abd_state !! 2%positive = Some (block_of false abd) /\
  exists r, deref (Some 2%positive) abc_abd_state = Ok r abc_abd_state /\
            r = blk_data (block_of false abd).
Proof.
  assert (rtc api_step abc_abd_state abc_abd_state) as Hsteps.
  { eapply rtc_l; [|apply rtc_refl].
    exists (call_destroy (mkEstrPtr (Some 2%positive))). vm_compute. reflexivity. }
  assert (mem abc_abd_state !! 2%positive = Some (block_of false abd)) as Hl
    by (vm_compute; reflexivity).
  assert (blk_storage (block_of false abd) = Static) as Hs by reflexivity.
  exact (static_headers_persist _ _ _ _ Hsteps Hl Hs).
Defined.

(** ** Allocation accounting *)








(** ** Round trips and copies *)

Lemma construct_then via s st :
  exists l st1,
    mem st1 !! l = Some (block_of (owned_via via) s) /\
    mem st !! l = None /\
    forall (A : Type) (k : EstrPtr -> M A),
      (p <- construct via s ;; k p) st = k (mkEstrPtr (Some l)) st1.
Proof.
  destruct (construct_run via s st) as [tr Hc].
  exists (fresh (dom (mem st))),
    (mkState (<[fresh (dom (mem st)) := block_of (owned_via via) s]> (mem st)) tr).
  split; [|split].
  - cbn [mem]. apply lookup_insert_eq.
  - apply fresh_unused.
  - intros A k. by erewrite bind_Ok by exact Hc.
Qed.



(** X14.  A clone compares equal to what it was cloned from: for a content
    of at most [2^31 - 1] bytes, built by either path, [operator==] on the
    original and on a view of its clone answers true. *)
Theorem clone_equals_original (via : path) (s : list byte) (st : state) :
  Z.of_nat (length s) <= 2 ^ 31 - 1 ->
  exists st',
    (p <- construct via s ;;
     c <- EstrUniquePtr_clone (EstrUniquePtr_claim p) ;;
     operator_eq p (EstrUniquePtr_get c)) st = Ok true st'.
Proof.
  intros Hs. destruct (construct_then via s st) as (l & st1 & Hl & _ & Hrun).
  rewrite Hrun. unfold EstrUniquePtr_clone, EstrUniquePtr_claim. cbn [_raw_data].
  erewrite bind_Ok.
  2:{ erewrite bind_Ok by apply (EstrPtr_view_block_of _ _ _ _ Hl).
      rewrite viewed_small by lia. unfold estr_unique_new.
      erewrite bind_Ok by apply estr_new_run. reflexivity. }
  unfold EstrUniquePtr_get, EstrUniquePtr_claim, EstrPtr_create_from_raw_data.
  cbn [_raw_data].
  set (l' := fresh (dom (mem st1))).
  assert (l <> l') as Hne.
  { intros Heq. pose proof (fresh_unused st1) as Hf. fold l' in Hf.
    rewrite <- Heq in Hf. congruence. }
  rewrite (operator_eq_block_of _ l l' (owned_via via) true s s).
  - rewrite equals_reference_same_bytes by lia.
    rewrite bool_decide_eq_true_2 by done. eauto.
  - cbn [mem]. by rewrite lookup_insert_ne.
  - cbn [mem]. apply lookup_insert_eq.
Qed.

Lemma clone_equals_original_witness :
  exists st',
    (p <- construct StaticPath hello ;;
     c <- EstrUniquePtr_clone (EstrUniquePtr_claim p) ;;
     operator_eq p (EstrUniquePtr_get c)) initial_state = Ok true st'.
Proof.
  assert (Z.of_nat (length hello) <= 2 ^ 31 - 1) as Hs by (vm_compute; discriminate).
  exact (clone_equals_original StaticPath hello initial_state Hs).
Defined.

(** X15.  Runtime strings are not interned: two calls of [estr_new] on the
    same content, of any size, return handles on two different blocks, which
    compare equal. *)
Theorem estr_new_does_not_intern (s : list byte) (st : state) :
  exists l1 l2 st',
    (a <- estr_new s ;; b <- estr_new s ;; ret (a, b)) st
    = Ok (mkEstrPtr (Some l1), mkEstrPtr (Some l2)) st' /\
    l1 <> l2 /\
    exists st'',
      operator_eq (mkEstrPtr (Some l1)) (mkEstrPtr (Some l2)) st' = Ok true st''.
Proof.
  destruct (construct_two_run HeapPath HeapPath s s st)
    as (l1 & l2 & st2 & Hne & Hl1 & Hl2 & Hrun).
  cbn [construct owned_via] in *.
  exists l1, l2, st2. split; [by rewrite Hrun|]. split; [exact Hne|].
  rewrite (operator_eq_block_of _ _ _ _ _ _ _ Hl1 Hl2).
  eexists. f_equal. by apply equals_reference_true_iff.
Qed.

(** X16.  For a content without NUL bytes, of at most [2^31 - 1] bytes,
    [data()] is a C string for the same text: a NUL sits at index [size()],
    the bytes before the first NUL are the content, and their number is
    [size()]. *)
Theorem data_is_c_string (via : path) (s : list byte) (st : state) :
  x00 ∉ s ->
  Z.of_nat (length s) <= 2 ^ 31 - 1 ->
  exists d st',
    (p <- construct via s ;; EstrPtr_data p) st = Ok d st' /\
    (p <- construct via s ;; EstrPtr_size p) st = Ok (Z.of_nat (length (c_str d))) st' /\
    c_str d = s /\
    d !! length s = Some x00.
Proof.
  intros Hnul Hs. destruct (construct_then via s st) as (l & st1 & Hl & _ & Hrun).
  exists (s ++ [x00]), st1. rewrite !Hrun.
  rewrite (EstrPtr_data_run _ _ _ Hl), (EstrPtr_size_run _ _ _ Hl).
  cbn [block_of blk_data]. rewrite header_of_length_small by lia.
  rewrite c_str_terminated, c_str_id by done.
  split; [done|]. split; [done|]. split; [done|].
  by rewrite lookup_app_r, Nat.sub_diag by lia.
Qed.

Lemma data_is_c_string_witness :
  exists d st',
    (p <- construct StaticPath hello ;; EstrPtr_data p) initial_state = Ok d st' /\
    (p <- construct StaticPath hello ;; EstrPtr_size p) initial_state
    = Ok (Z.of_nat (length (c_str d))) st' /\
    c_str d = hello /\
    d !! length hello = Some x00.
Proof.
  assert (x00 ∉ hello) as Hnul.
  { intros H. vm_compute in H.
    repeat (apply elem_of_cons in H as [H|H]; [discriminate|]).
    by apply elem_of_nil in H. }
  assert (Z.of_nat (length hello) <= 2 ^ 31 - 1) as Hs by (vm_compute; discriminate).
  exact (data_is_c_string StaticPath hello initial_state Hnul Hs).
Defined.

(** ** Invariants of the headers in a reachable store *)

Lemma bits_set_length_value (owned : bool) (n : Z) :
  bits_set_length n (Z.b2z owned) = Z.b2z owned + 2 * (n mod 2 ^ 31).
Proof.
  unfold bits_set_length. rewrite Z.shiftl_mul_pow2 by lia.
  change (2 ^ 1) with 2. rewrite (Z.mul_comm _ 2).
  destruct owned; cbn [Z.b2z].
  - change (Z.land 1 1) with 1.
    rewrite <- Z.lxor_lor, <- Z.add_nocarry_lxor; [done|..];
      apply Z.bits_inj'; intros i Hi; rewrite Z.land_spec, Z.bits_0;
      (destruct (decide (i = 0)) as [->|Hne];
       [by rewrite Z.testbit_even_0, andb_false_r
       |by rewrite (Z.bits_above_log2 1 i) by (simpl; lia)]).
  - change (Z.land 0 1) with 0. by rewrite Z.lor_0_l.
Qed.

(** X17.  In every reachable store, a view of a live header stays inside its
    buffer: [size()] is less than the number of bytes stored, the last stored
    byte is a NUL, and [view()] succeeds with exactly [size()] bytes, a prefix
    of the buffer. *)
Theorem view_within_buffer (st : state) (l : loc) (b : block) :
  reachable st ->
  mem st !! l = Some b ->
  EstrRawData_length (blk_data b)
    < Z.of_nat (length (EstrRawData_chars (blk_data b))) /\
  last (EstrRawData_chars (blk_data b)) = Some x00 /\
  exists v,
    EstrPtr_view (mkEstrPtr (Some l)) st = Ok v st /\
    Z.of_nat (length v) = EstrRawData_length (blk_data b) /\
    v `prefix_of` EstrRawData_chars (blk_data b).
Proof.
  intros Hreach Hl.
  destruct (reachable_store_ok st Hreach l b Hl) as (owned & s & ->).
  split; [apply header_of_in_buffer|].
  split; [cbn [block_of blk_data header_of EstrRawData_chars]; apply last_snoc|].
  exists (viewed s). split; [by apply (EstrPtr_view_block_of _ _ owned)|].
  split.
  - cbn [block_of blk_data]. by rewrite viewed_length, header_of_length.
  - cbn [block_of blk_data header_of EstrRawData_chars]. unfold viewed.
    eapply prefix_app_r. apply prefix_take.
Qed.

Lemma view_within_buffer_witness :
  exists v,
    EstrPtr_view (mkEstrPtr (Some 1%positive)) hello_state = Ok v hello_state /\
    Z.of_nat (length v) = EstrRawData_length (blk_data (block_of true hello)) /\
    v `prefix_of` EstrRawData_chars (blk_data (block_of true hello)).
Proof.
  assert (reachable hello_state) as Hreach.
  { eapply rtc_l; [|apply rtc_refl].
    exists (call_estr_new hello). vm_compute. reflexivity. }
  assert (mem hello_state !! 1%positive = Some (block_of true hello)) as Hl
    by (vm_compute; reflexivity).
  exact (proj2 (proj2 (view_within_buffer hello_state 1%positive _ Hreach Hl))).
Defined.

(** X18.  In every reachable store the fields of a live header fit their C
    types and the flag tells the storage: the packed word and the hash are
    below [2^32], the word is the flag plus twice the length, and
    [needs_disposing] is set exactly on the headers that live in heap
    blocks. *)
Theorem header_fields_well_formed (st : state) (l : loc) (b : block) :
  reachable st ->
  mem st !! l = Some b ->
  0 <= EstrRawData_bits (blk_data b) < 2 ^ 32 /\
  EstrRawData_bits (blk_data b)
  = Z.b2z (EstrRawData_needs_disposing (blk_data b))
    + 2 * EstrRawData_length (blk_data b) /\
  0 <= EstrRawData_hash (blk_data b) < 2 ^ 32 /\
  (EstrRawData_needs_disposing (blk_data b) = true <-> blk_storage b = Heap).
Proof.
  intros Hreach Hl.
  destruct (reachable_store_ok st Hreach l b Hl) as (owned & s & ->).
  cbn [block_of blk_data blk_storage].
  rewrite header_of_needs_disposing, header_of_length.
  cbn [header_of EstrRawData_bits EstrRawData_hash].
  rewrite bits_set_length_value.
  pose proof (Z.mod_pos_bound (Z.of_nat (length s)) (2 ^ 31)).
  split; [destruct owned; cbn [Z.b2z]; lia|].
  split; [done|]. split; [apply polynomial_hash_range|].
  by destruct owned.
Qed.

Lemma header_fields_well_formed_witness :
  0 <= EstrRawData_bits (blk_data (block_of true hello)) < 2 ^ 32.
Proof.
  assert (reachable hello_state) as Hreach.
  { eapply rtc_l; [|apply rtc_refl].
    exists (call_estr_new hello). vm_compute. reflexivity. }
  assert (mem hello_state !! 1%positive = Some (block_of true hello)) as Hl
    by (vm_compute; reflexivity).
  exact (proj1 (header_fields_well_formed hello_state 1%positive _ Hreach Hl)).
Defined.

(** ** The hash of a concatenation, and contents beyond the length field *)

Lemma poly_sum_app s1 : forall s2 i,
  poly_sum (s1 ++ s2) i = poly_sum s1 i + poly_sum s2 (i + Z.of_nat (length s1)).
Proof.
  induction s1 as [|c s1 IH]; intros s2 i; cbn [app poly_sum length].
  - change (Z.of_nat 0) with 0. by rewrite Z.add_0_l, Z.add_0_r.
  - rewrite IH, Z.add_assoc. do 2 f_equal. lia.
Qed.

Lemma poly_sum_shift s : forall i,
  0 <= i -> poly_sum s i = 127 ^ i * poly_sum s 0.
Proof.
  induction s as [|c s IH]; intros i Hi; cbn [poly_sum]; [lia|].
  rewrite (IH (i + 1)), (IH (0 + 1)) by lia.
  rewrite Z.pow_add_r, Z.pow_0_r by lia. change (0 + 1) with 1.
  rewrite Z.pow_1_r. ring.
Qed.

Lemma polynomial_hash_app s1 s2 :
  polynomial_hash (s1 ++ s2)
  = (polynomial_hash s1 + 127 ^ Z.of_nat (length s1) * polynomial_hash s2) mod 2 ^ 32.
Proof.
  unfold polynomial_hash. rewrite poly_sum_app.
  rewrite (poly_sum_shift s2 (0 + Z.of_nat (length s1))) by lia.
  rewrite Z.add_0_l.
  rewrite (Z.add_mod (poly_sum s1 0)) by lia.
  rewrite (Z.add_mod (poly_sum s1 0 mod 2 ^ 32) (_ * (_ mod _))) by lia.
  by rewrite Z.mod_mod, Z.mul_mod_idemp_r by lia.
Qed.

(** X19.  The hash of a concatenation follows from the hashes of its parts:
    for two texts without NUL, the hash of the first followed by the second
    is the first hash plus [127^|s1|] times the second, modulo [2^32]. *)
Theorem ascii_string_hash_app (s1 s2 : list byte) :
  x00 ∉ s1 ->
  x00 ∉ s2 ->
  exists h1 h2,
    ascii_string_hash (s1 ++ [x00]) = Some h1 /\
    ascii_string_hash (s2 ++ [x00]) = Some h2 /\
    ascii_string_hash ((s1 ++ s2) ++ [x00])
    = Some ((h1 + 127 ^ Z.of_nat (length s1) * h2) mod 2 ^ 32).
Proof.
  intros H1 H2. exists (polynomial_hash s1), (polynomial_hash s2).
  rewrite !ascii_string_hash_terminated, !c_str_id;
    [|apply not_elem_of_app|..]; try done.
  by rewrite polynomial_hash_app.
Qed.

Lemma ascii_string_hash_app_witness :
  exists h1 h2,
    ascii_string_hash (abc ++ [x00]) = Some h1 /\
    ascii_string_hash (abd ++ [x00]) = Some h2 /\
    ascii_string_hash ((abc ++ abd) ++ [x00])
    = Some ((h1 + 127 ^ Z.of_nat (length abc) * h2) mod 2 ^ 32).
Proof.
  assert (forall s : list byte, s = abc \/ s = abd -> x00 ∉ s) as Hnul.
  { intros s [-> | ->] H; vm_compute in H;
      repeat (apply elem_of_cons in H as [H|H]; [discriminate|]);
      by apply elem_of_nil in H. }
  exact (ascii_string_hash_app abc abd (Hnul abc (or_introl eq_refl))
           (Hnul abd (or_intror eq_refl))).
Defined.

(** X20.  A content of any size is stored whole, but seen through the 31-bit
    length: [size()] is [|s| mod 2^31] and [view()] and [to_string] show the
    first [|s| mod 2^31] bytes of the content, a prefix of it, never more. *)
Theorem view_is_truncated_content (via : path) (s : list byte) (st : state) :
  exists st',
    (p <- construct via s ;; EstrPtr_data p) st = Ok (s ++ [x00]) st' /\
    (p <- construct via s ;; EstrPtr_size p) st
    = Ok (Z.of_nat (length s) mod 2 ^ 31) st' /\
    (p <- construct via s ;; EstrPtr_view p) st
    = Ok (take (Z.to_nat (Z.of_nat (length s) mod 2 ^ 31)) s) st' /\
    (p <- construct via s ;; std_to_string p) st
    = Ok (take (Z.to_nat (Z.of_nat (length s) mod 2 ^ 31)) s) st' /\
    take (Z.to_nat (Z.of_nat (length s) mod 2 ^ 31)) s `prefix_of` s.
Proof.
  destruct (construct_then via s st) as (l & st1 & Hl & _ & Hrun).
  exists st1. rewrite !Hrun. unfold std_to_string.
  rewrite (EstrPtr_data_run _ _ _ Hl), (EstrPtr_size_run _ _ _ Hl),
    (EstrPtr_view_block_of _ _ _ _ Hl).
  cbn [block_of blk_data]. rewrite header_of_length.
  repeat split. apply prefix_take.
Qed.
